(** * q2mm [parameters.py]: selection, aggregation, averaging and usage check

    A shallow embedding of [parameters.py] (the parameter selection script of
    q2mm) together with the properties its specification states.

    Modelling choices.
    - Python integers are [Z]; Python strings are [string].
    - Python floats ([param.value], [bond.value], [np.mean]) are values of a
      type [V] with the arithmetic [np.mean] needs (class [Number]).  The
      program is embedded once, for every such [V]; it is run on the exact
      rationals [Q], where the mean is the exact mean, and on IEEE 754
      binary64, the arithmetic of Python itself.
    - Parameter objects are shared and mutated in place.  They live in a heap
      ([list Param], addressed by position); every Python list of parameters
      ([ff.params], [chosen_params], [params]) is a list of references into
      that heap, so two entries naming the same object alias each other.
      A position beyond the heap denotes no object; Python has no such
      reference, and every loop passes over it.
    - Effects are threaded through a state-and-exception monad [M]: the state
      holds the heap and the trace of outward effects (files opened, lines
      printed, force fields exported); a raised exception leaves the state as
      it was when it was raised.
    - The collaborators that are not part of [parameters.py]
      ([datatypes.MM3], [filetypes.MacroModel], the file system) are taken as
      a parameter [Env].  Calls to [logger.log] are not modelled. *)

From Stdlib Require Import ZArith QArith Lqa Ascii String List.
From Stdlib Require PrimFloat Uint63.
From Stdlib Require DecimalString DecimalPos DecimalZ.
From stdpp Require Import gmap strings list fin_maps.

Local Open Scope string_scope.
Local Open Scope Z_scope.

(** ** Numbers *)

(** The arithmetic [np.mean] uses: a zero, addition, division, and the
    number that stands for a count. *)
Class Number (V : Type) := {
  num_zero : V;
  num_add : V → V → V;
  num_div : V → V → V;
  num_of_count : nat → V
}.

#[export] Instance Q_number : Number Q := {|
  num_zero := 0%Q;
  num_add := Qplus;
  num_div := Qdiv;
  num_of_count n := inject_Z (Z.of_nat n)
|}.

#[export] Instance binary64_number : Number PrimFloat.float := {|
  num_zero := PrimFloat.zero;
  num_add := PrimFloat.add;
  num_div := PrimFloat.div;
  num_of_count n := PrimFloat.of_uint63 (Uint63.of_Z (Z.of_nat n))
|}.

(** What a [.mmo] file yields: structures, each with bonds and angles, each
    of which carries the force-field row it was computed with and its
    value. *)
Module Mmo.
Record Datum (V : Type) := mkDatum { ff_row : Z; value : V }.
Record Structure (V : Type) :=
  mkStructure { bonds : list (Datum V); angles : list (Datum V) }.
Record MacroModel (V : Type) := mkMacroModel { structures : list (Structure V) }.
Arguments mkDatum {V} ff_row value.
Arguments ff_row {V} d.
Arguments value {V} d.
Arguments mkStructure {V} bonds angles.
Arguments bonds {V} s.
Arguments angles {V} s.
Arguments mkMacroModel {V} structures.
Arguments structures {V} m.
End Mmo.

(** References to parameter objects: positions in the heap. *)
Abbreviation ref := nat.

(** Python exceptions that [parameters.py] can raise. *)
Inductive PyError :=
| AssertionError   (* assert opts.mmo *)
| IndexError       (* cols[1] on a one-token line *)
| ValueError       (* int() of a token that is no integer literal *)
| IOError          (* a file that cannot be opened *)
| TypeError.       (* iterating over None *)

Inductive result (A : Type) :=
| Ok (a : A)
| Raise (e : PyError).
Arguments Ok {A} a.
Arguments Raise {A} e.

Section Model.
Context {V : Type} `{!Number V}.

(** ** Data model *)

(** A parameter object of the force field ([datatypes.Param]): only the
    attributes [parameters.py] reads or writes. [_allow_negative] is [None]
    or [True] in Python. *)
Record Param := mkParam {
  mm3_row : Z;
  mm3_col : Z;
  ptype : string;
  value : V;
  allow_negative : option bool
}.

Definition set_value (v : V) (p : Param) : Param :=
  mkParam (mm3_row p) (mm3_col p) (ptype p) v (allow_negative p).

Definition set_allow_negative (a : option bool) (p : Param) : Param :=
  mkParam (mm3_row p) (mm3_col p) (ptype p) (value p) a.

(** Outward effects, in the order they happen. *)
Inductive Event :=
| EvImportFF (path : string)                    (* datatypes.MM3(path).import_ff() *)
| EvOpen (path : string)                        (* open(filename, 'r') *)
| EvMacroModel (path : string)                  (* filetypes.MacroModel(filename) *)
| EvNotInUse (p : Param)                        (* print("{} doesn't appear to be in use.") *)
| EvExportFF (path : string) (ps : list Param)  (* datatypes.export_ff(path, params) *)
| EvPrint (row col : Z).                        (* print('{} {}') *)

Record State := mkState {
  heap : list Param;
  trace : list Event
}.

(** The collaborators, as seen from [parameters.py]: what parsing the force
    field at a path yields, what a text file holds, what a [.mmo] file
    holds. [None] stands for a file that cannot be read. *)
Record Env := mkEnv {
  ff_file : string → option (list Param);
  text_file : string → option string;
  mmo_file : string → option (Mmo.MacroModel V)
}.

(** ** The monad *)

Definition M (A : Type) : Type := State → State * result A.

#[global] Instance M_ret : MRet M := λ A a σ, (σ, Ok a).
#[global] Instance M_bind : MBind M := λ A B f m σ,
  match m σ with
  | (σ', Ok a) => f a σ'
  | (σ', Raise e) => (σ', Raise e)
  end.

Definition raise {A} (e : PyError) : M A := λ σ, (σ, Raise e).
Definition get_heap : M (list Param) := λ σ, (σ, Ok (heap σ)).
Definition put_heap (h : list Param) : M unit :=
  λ σ, (mkState h (trace σ), Ok tt).
Definition emit (e : Event) : M unit :=
  λ σ, (mkState (heap σ) (trace σ ++ [e]), Ok tt).

(** [for x in xs: body] *)
Fixpoint for_each {A} (xs : list A) (body : A → M unit) : M unit :=
  match xs with
  | [] => mret tt
  | x :: xs' => body x ;; for_each xs' body
  end.

(** Attribute update on the object behind a reference. *)
Definition update (i : ref) (f : Param → Param) : M unit :=
  h ← get_heap; put_heap (alter f i h).

(** ** Strings: [partition], [split], [int], [in] *)

(** Whitespace as [str.split()] sees it: space, \t, \n, \v, \f, \r. *)
Definition is_space (c : ascii) : bool :=
  let n := N_of_ascii c in ((n =? 32) || ((9 <=? n) && (n <=? 13)))%N.

(** [line.partition('#')[0]]: the text before the first [#]. *)
Fixpoint before_hash (s : string) : string :=
  match s with
  | EmptyString => EmptyString
  | String c s' => if Ascii.eqb c "#"%char then EmptyString else String c (before_hash s')
  end.

(** [s.split()]: maximal runs of non-whitespace characters; [cur] is the
    run being read. *)
Fixpoint split_from (cur : string) (s : string) : list string :=
  match s with
  | EmptyString => match cur with EmptyString => [] | _ => [cur] end
  | String c s' =>
      if is_space c then
        match cur with
        | EmptyString => split_from EmptyString s'
        | _ => cur :: split_from EmptyString s'
        end
      else split_from (cur ++ String c EmptyString) s'
  end.

Definition py_split (s : string) : list string := split_from EmptyString s.

Definition digit_of (c : ascii) : option Z :=
  let n := Z.of_N (N_of_ascii c) in
  if (48 <=? n) && (n <=? 57) then Some (n - 48) else None.

Fixpoint digits_from (acc : Z) (s : string) : option Z :=
  match s with
  | EmptyString => Some acc
  | String c s' =>
      match digit_of c with
      | Some d => digits_from (10 * acc + d) s'
      | None => None
      end
  end.

Definition unsigned_int (s : string) : option Z :=
  match s with
  | EmptyString => None
  | _ => digits_from 0 s
  end.

(** [int(s)] for a token without whitespace: an optional sign and at least
    one decimal digit; [None] stands for [ValueError]. *)
Definition py_int (s : string) : option Z :=
  match s with
  | EmptyString => None
  | String c s' =>
      if Ascii.eqb c "+"%char then unsigned_int s'
      else if Ascii.eqb c "-"%char then Z.opp <$> unsigned_int s'
      else unsigned_int s
  end.

(** [sub in s] on strings. *)
Fixpoint contains (sub s : string) : bool :=
  String.prefix sub s ||
  match s with
  | EmptyString => false
  | String _ s' => contains sub s'
  end.

(** [for line in f]: the lines of a file, each with its newline. *)
Fixpoint lines_from (cur : string) (s : string) : list string :=
  match s with
  | EmptyString => match cur with EmptyString => [] | _ => [cur] end
  | String c s' =>
      if Ascii.eqb c "010"%char then (cur ++ String c EmptyString) :: lines_from EmptyString s'
      else lines_from (cur ++ String c EmptyString) s'
  end.

Definition file_lines (s : string) : list string := lines_from EmptyString s.

(** ** [np.mean] *)

(** The arithmetic mean [(v1 + ... + vn) / n], the sum taken from left to
    right as numpy takes it for fewer than eight values (it adds longer
    arrays pairwise, which changes the rounding in binary64 and nothing in
    exact arithmetic).  Every list it is applied to is built by
    [gather_values] and holds at least one value. *)
Definition np_mean (values : list V) : V :=
  num_div (fold_left num_add values num_zero) (num_of_count (length values)).

(** ** Selection *)

Definition ALL_PARM_TYPES : list string :=
  ["ae"; "af"; "be"; "bf"; "df"; "imp1"; "imp2"; "sb"; "q"; "vdwe"; "vdwr"].

(** The objects a list of references denotes in a heap. *)
Definition view (h : list Param) (params : list ref) : list Param :=
  omap (λ i, h !! i) params.

(** [x.ptype in ptypes] for the object behind [x]. *)
Definition has_ptype (h : list Param) (ptypes : list string) (x : ref) : bool :=
  match h !! x with
  | Some p => bool_decide (ptype p ∈ ptypes)
  | None => false
  end.

(** [trim_params_by_type(params, ptypes)], lines 81-88. *)
Definition trim_params_by_type (params : list ref) (ptypes : list string)
  : M (list ref) :=
  h ← get_heap;
  mret (List.filter (has_ptype h ptypes) params).

(** A line of the parameter file once read: [(mm3_row, mm3_col,
    allow_negative)]. *)
Definition Directive : Type := Z * Z * option bool.

(** Lines 141-144: [allow_negative] starts as [None] and becomes [True] at
    each further token that contains [neg]. *)
Definition neg_flag (args : list string) : option bool :=
  fold_left (λ allow arg, if contains "neg" arg then Some true else allow)
            args None.

(** Lines 136-146, the body of the reading loop for one line: [Ok None] when
    the line has no token, the directive when it has one. [int(cols[0])] is
    evaluated before [cols[1]] is looked up. *)
Definition read_line (line : string) : result (option Directive) :=
  match py_split (before_hash line) with
  | [] => Ok None
  | c0 :: rest =>
      match py_int c0 with
      | None => Raise ValueError
      | Some mm3_row =>
          match rest with
          | [] => Raise IndexError
          | c1 :: args =>
              match py_int c1 with
              | None => Raise ValueError
              | Some mm3_col => Ok (Some (mm3_row, mm3_col, neg_flag args))
              end
          end
      end
  end.

(** Lines 135-146: the reading loop, [temp_params] being the list built so
    far. *)
Fixpoint read_lines (lines : list string) (temp_params : list Directive)
  : result (list Directive) :=
  match lines with
  | [] => Ok temp_params
  | line :: lines' =>
      match read_line line with
      | Raise e => Raise e
      | Ok None => read_lines lines' temp_params
      | Ok (Some d) => read_lines lines' (temp_params ++ [d])
      end
  end.

Definition matches (p : Param) (temp_param : Directive) : bool :=
  (mm3_row p =? temp_param.1.1) && (mm3_col p =? temp_param.1.2).

(** Lines 149-154: the inner loop, for one parameter. *)
Fixpoint match_directives (param : ref) (temp_params : list Directive)
    (chosen_params : list ref) : M (list ref) :=
  match temp_params with
  | [] => mret chosen_params
  | temp_param :: rest =>
      h ← get_heap;
      match h !! param with
      | Some p =>
          if matches p temp_param then
            update param (set_allow_negative temp_param.2) ;;
            match_directives param rest (chosen_params ++ [param])
          else match_directives param rest chosen_params
      | None => match_directives param rest chosen_params
      end
  end.

(** Lines 148-154: the outer loop. *)
Fixpoint match_params (params : list ref) (temp_params : list Directive)
    (chosen_params : list ref) : M (list ref) :=
  match params with
  | [] => mret chosen_params
  | param :: rest =>
      chosen_params' ← match_directives param temp_params chosen_params;
      match_params rest temp_params chosen_params'
  end.

Section WithEnv.
Variable env : Env.

(** [open(filename, 'r')] and the text read from it. *)
Definition open_read (filename : string) : M string :=
  emit (EvOpen filename) ;;
  match text_file env filename with
  | Some s => mret s
  | None => raise IOError
  end.

(** [trim_params_by_file(params, filename)], lines 90-157. *)
Definition trim_params_by_file (params : list ref) (filename : string)
  : M (list ref) :=
  text ← open_read filename;
  match read_lines (file_lines text) [] with
  | Raise e => raise e
  | Ok temp_params => match_params params temp_params []
  end.
End WithEnv.

(** ** Aggregation *)

(** Lines 175-178 (and 180-183): one observation goes into its table. *)
Definition add_value (dic : gmap Z (list V)) (d : (Mmo.Datum V)) : gmap Z (list V) :=
  match dic !! Mmo.ff_row d with
  | Some values => <[Mmo.ff_row d := (values ++ [Mmo.value d])%list]> dic
  | None => <[Mmo.ff_row d := [Mmo.value d]]> dic
  end.

Definition gather_structure (dics : gmap Z (list V) * gmap Z (list V))
    (structure : (Mmo.Structure V)) : gmap Z (list V) * gmap Z (list V) :=
  (fold_left add_value (Mmo.bonds structure) dics.1,
   fold_left add_value (Mmo.angles structure) dics.2).

Definition gather_mmo (dics : gmap Z (list V) * gmap Z (list V))
    (mmo : (Mmo.MacroModel V)) : gmap Z (list V) * gmap Z (list V) :=
  fold_left gather_structure (Mmo.structures mmo) dics.

(** [gather_values(mmos)], lines 159-184: [(bond_dic, angle_dic)]. *)
Definition gather_values (mmos : list (Mmo.MacroModel V))
  : gmap Z (list V) * gmap Z (list V) :=
  fold_left gather_mmo mmos (∅, ∅).

(** ** Usage check and averaging *)

(** Lines 226-229. [bond_dic.keys() + angle_dic.keys()] is a list; only
    membership in it is used. *)
Definition check_usage (bond_dic angle_dic : gmap Z (list V))
    (params : list ref) : M unit :=
  let all_rows := ((map_to_list bond_dic).*1 ++ (map_to_list angle_dic).*1)%list in
  for_each params (λ param,
    h ← get_heap;
    match h !! param with
    | Some p =>
        if bool_decide (mm3_row p ∈ all_rows) then mret tt
        else emit (EvNotInUse p)
    | None => mret tt
    end).

(** Lines 243-244 with [avg = bond_avg], lines 245-246 with
    [avg = angle_avg]: the two statements differ in the table only. *)
Definition override_from (avg : gmap Z V) (param : ref) : M unit :=
  h ← get_heap;
  match h !! param with
  | Some p =>
      if bool_decide (ptype p ∈ ["be"; "ae"]) then
        match avg !! mm3_row p with
        | Some v => update param (set_value v)
        | None => mret tt
        end
      else mret tt
  | None => mret tt
  end.

(** Lines 235-246. *)
Definition average_params (bond_dic angle_dic : gmap Z (list V))
    (params : list ref) : M unit :=
  let bond_avg := np_mean <$> bond_dic in
  let angle_avg := np_mean <$> angle_dic in
  for_each params (λ param,
    override_from bond_avg param ;;
    override_from angle_avg param).

(** ** [main] *)

(** The options as [argparse] hands them over. *)
Record Opts := mkOpts {
  opt_all : bool;
  opt_average : option string;
  opt_check : bool;
  opt_ffpath : string;
  opt_mmo : option (list string);
  opt_printparams : bool;
  opt_pfile : option string;
  opt_ptypes : list string
}.

(** Truth value of an optional string ([None] and [''] are false). *)
Definition given (o : option string) : bool :=
  match o with
  | Some (String _ _) => true
  | _ => false
  end.

(** Truth value of an optional list ([None] and [[]] are false). *)
Definition supplied {A} (o : option (list A)) : bool :=
  match o with
  | Some (_ :: _) => true
  | _ => false
  end.

Definition path_of (o : option string) : string := default EmptyString o.

(** Lines 203-204: [opts.ptypes] once [--all] has extended it. *)
Definition requested_ptypes (opts : Opts) : list string :=
  if opt_all opts then (opt_ptypes opts ++ ALL_PARM_TYPES)%list
  else opt_ptypes opts.

Section Main.
Variable env : Env.

(** Lines 200-201: the force field is parsed and its parameters become
    new objects; the result is [ff.params]. *)
Definition import_ff (path : string) : M (list ref) :=
  emit (EvImportFF path) ;;
  match ff_file env path with
  | Some ps =>
      h ← get_heap;
      put_heap (h ++ ps) ;;
      mret (seq (length h) (length ps))
  | None => raise IOError
  end.

(** Lines 218-220. *)
Fixpoint load_mmos (filenames : list string) (mmos : list (Mmo.MacroModel V))
  : M (list (Mmo.MacroModel V)) :=
  match filenames with
  | [] => mret mmos
  | filename :: rest =>
      emit (EvMacroModel filename) ;;
      match mmo_file env filename with
      | Some mmo => load_mmos rest (mmos ++ [mmo])
      | None => raise IOError
      end
  end.

(** Line 248. *)
Definition export_ff (path : string) (params : list ref) : M unit :=
  h ← get_heap; emit (EvExportFF path (view h params)).

(** Lines 251-252. *)
Definition print_params (params : list ref) : M unit :=
  for_each params (λ param,
    h ← get_heap;
    match h !! param with
    | Some p => emit (EvPrint (mm3_row p) (mm3_col p))
    | None => mret tt
    end).

(** Lines 217-248. *)
Definition use_mmos (opts : Opts) (params : list ref) : M unit :=
  if supplied (opt_mmo opts) || given (opt_average opts) || opt_check opts then
    mmos ← match opt_mmo opts with
            | Some filenames => load_mmos filenames []
            | None => raise TypeError
            end;
    let dics := gather_values mmos in
    (if opt_check opts then check_usage dics.1 dics.2 params else mret tt) ;;
    (if given (opt_average opts) then
       average_params dics.1 dics.2 params ;;
       export_ff (path_of (opt_average opts)) params
     else mret tt)
  else mret tt.

(** Lines 206-213: the two selections, one after the other. *)
Definition select_params (opts : Opts) (ff_params : list ref) : M (list ref) :=
  by_type ← match requested_ptypes opts with
             | [] => mret []
             | ptypes => trim_params_by_type ff_params ptypes
             end;
  by_file ← (if given (opt_pfile opts)
             then trim_params_by_file env ff_params (path_of (opt_pfile opts))
             else mret []);
  mret (by_type ++ by_file)%list.

(** [main(args)], lines 186-254, from the parsed options on. The result
    is [ff.params] as it is when [ff] is returned. *)
Definition main (opts : Opts) : M (list ref) :=
  (if given (opt_average opts) || opt_check opts then
     if supplied (opt_mmo opts) then mret tt else raise AssertionError
   else mret tt) ;;
  ff_params ← import_ff (opt_ffpath opts);
  params ← select_params opts ff_params;
  use_mmos opts params ;;
  (if opt_printparams opts then print_params params else mret tt) ;;
  mret params.
End Main.

(** ** Reference definitions

    What the specification says the operations compute, written without the
    loops of the code; the theorems below compare the two. *)

(** The bond (angle) observations of a sequence of structure collections, in
    traversal order. *)
Definition all_bonds (mmos : list (Mmo.MacroModel V)) : list (Mmo.Datum V) :=
  flat_map (λ mmo, flat_map Mmo.bonds (Mmo.structures mmo)) mmos.

Definition all_angles (mmos : list (Mmo.MacroModel V)) : list (Mmo.Datum V) :=
  flat_map (λ mmo, flat_map Mmo.angles (Mmo.structures mmo)) mmos.

(** The values observed for [row], in order. *)
Definition values_of (row : Z) (ds : list (Mmo.Datum V)) : list V :=
  map Mmo.value (List.filter (λ d, Mmo.ff_row d =? row) ds).

(** The entry of [row] in the table of [ds]: present once [row] has been
    observed. *)
Definition entry_of (row : Z) (ds : list (Mmo.Datum V)) : option (list V) :=
  match values_of row ds with
  | [] => None
  | values => Some values
  end.

(** The directives that name the address of [p], in file order. *)
Definition matching (p : Param) (temp_params : list Directive) : list Directive :=
  List.filter (matches p) temp_params.

(** One reference to [param] per directive that names its address. *)
Definition inclusions (h : list Param) (temp_params : list Directive)
    (param : ref) : list ref :=
  match h !! param with
  | Some p => replicate (length (matching p temp_params)) param
  | None => []
  end.

(** The record once every directive that names it has set its flag. *)
Definition flagged (temp_params : list Directive) (p : Param) : Param :=
  match last (matching p temp_params) with
  | Some d => set_allow_negative d.2 p
  | None => p
  end.

(** An integer token: an optional sign, then one decimal digit or more. *)
Definition is_digit (c : ascii) : bool :=
  let n := N_of_ascii c in ((48 <=? n) && (n <=? 57))%N.

Definition all_digits (s : string) : bool :=
  match list_ascii_of_string s with
  | [] => false
  | cs => forallb is_digit cs
  end.

Definition integer_token (s : string) : bool :=
  match s with
  | EmptyString => false
  | String c s' =>
      if Ascii.eqb c "+"%char || Ascii.eqb c "-"%char then all_digits s'
      else all_digits s
  end.

(** A line is acceptable when it is blank or a comment, or when its first
    two tokens are integers. *)
Definition acceptable (line : string) : Prop :=
  match py_split (before_hash line) with
  | [] => True
  | [_] => False
  | c0 :: c1 :: _ => integer_token c0 = true ∧ integer_token c1 = true
  end.

(** The condition the specification calls MalformedSelectionLine. *)
Definition MalformedSelectionLine (e : PyError) : Prop :=
  e = IndexError ∨ e = ValueError.

(** What averaging makes of a record: lines 243-246 on a value. *)
Definition eligible (p : Param) : bool := bool_decide (ptype p ∈ ["be"; "ae"]).

Definition overridden (avg : gmap Z V) (p : Param) : Param :=
  if eligible p then
    match avg !! mm3_row p with
    | Some v => set_value v p
    | None => p
    end
  else p.

Definition averaged (bond_dic angle_dic : gmap Z (list V)) (p : Param) : Param :=
  overridden (np_mean <$> angle_dic) (overridden (np_mean <$> bond_dic) p).

(** A record is in use when its row is a key of either table. *)
Definition in_use (bond_dic angle_dic : gmap Z (list V)) (p : Param) : bool :=
  bool_decide (mm3_row p ∈ dom bond_dic ∪ dom angle_dic).

(** The records the usage check reports, in the order of the chosen list. *)
Definition not_in_use (bond_dic angle_dic : gmap Z (list V)) (h : list Param)
    (params : list ref) : list Param :=
  List.filter (λ p, negb (in_use bond_dic angle_dic p)) (view h params).

(** The condition the specification calls MissingRequiredInput. *)
Definition MissingRequiredInput (e : PyError) : Prop := e = AssertionError.

(** ** Further definitions

    What the remaining properties are stated with. *)

(** [str(n)] for an integer: a minus sign if it is negative, then its
    decimal digits. *)
Definition py_str (n : Z) : string :=
  DecimalString.NilZero.string_of_int (Z.to_int n).

(** Line 252: ['{} {}'.format(param.mm3_row, param.mm3_col)]. *)
Definition format_address (row col : Z) : string :=
  py_str row ++ String " "%char (py_str col).

(** What [--printparams] writes for the parameters [ps]: one line each,
    ended by a newline. *)
Fixpoint address_lines (ps : list Param) : string :=
  match ps with
  | [] => EmptyString
  | p :: ps' =>
      format_address (mm3_row p) (mm3_col p) ++ String "010"%char (address_lines ps')
  end.

(** Every character of [s] passes [ok]. *)
Fixpoint all_chars (ok : ascii → bool) (s : string) : bool :=
  match s with
  | EmptyString => true
  | String c s' => ok c && all_chars ok s'
  end.

(** A character that can stand in a token: no whitespace, no [#]. *)
Definition token_char (c : ascii) : bool :=
  negb (is_space c) && negb (Ascii.eqb c "#"%char).

(** A character other than [#]. *)
Definition text_char (c : ascii) : bool := negb (Ascii.eqb c "#"%char).

(** A character that does not end a line. *)
Definition line_char (c : ascii) : bool := negb (Ascii.eqb c "010"%char).

(** [sub] occurs in [s]. *)
Definition occurs_in (sub s : string) : Prop :=
  ∃ before after : string, s = before ++ sub ++ after.

(** [h'] holds the objects of [h] and no other, each at its place and with
    the same [f]. *)
Definition retains {B} (f : Param → B) (h h' : list Param) : Prop :=
  length h' = length h ∧
  ∀ i p, h !! i = Some p → ∃ p', h' !! i = Some p' ∧ f p' = f p.

(** The effects of [σ] are the first effects of [σ']. *)
Definition extends (σ σ' : State) : Prop :=
  ∃ events, trace σ' = (trace σ ++ events)%list.

(** A computation that, wherever it is run and however it ends, keeps
    the objects with their [f], takes no effect back, and does not raise
    [TypeError]. *)
Definition sound {A B} (f : Param → B) (m : M A) : Prop :=
  ∀ σ, retains f (heap σ) (heap (m σ).1) ∧ extends σ (m σ).1 ∧
       (m σ).2 ≠ Raise TypeError.

(** What identifies a parameter: its address and its type. *)
Definition identity (p : Param) : Z * Z * string :=
  (mm3_row p, mm3_col p, ptype p).

(** The address a directive names. *)
Definition address (d : Directive) : Z * Z := d.1.

(** Line 195-196, the condition of the assertion. *)
Definition mmo_required (opts : Opts) : bool :=
  given (opt_average opts) || opt_check opts.

(** Lines 206-254: [main] once the force field is imported. *)
Definition main_selected (env : Env) (opts : Opts) (ff_params : list ref)
  : M (list ref) :=
  params ← select_params env opts ff_params;
  use_mmos env opts params ;;
  (if opt_printparams opts then print_params params else mret tt) ;;
  mret params.

(** Running a computation: the state it leaves and what it returns. *)
Definition state_after {A} (m : M A) (σ : State) : State := (m σ).1.
Definition outcome {A} (m : M A) (σ : State) : result A := (m σ).2.

End Model.

Arguments Param : clear implicits.
Arguments Event : clear implicits.
Arguments State : clear implicits.
Arguments Env : clear implicits.
Arguments M : clear implicits.

(** ** Concrete inputs used by the examples *)

Module Scenario.
(** The records [(100,1,"be")], [(100,2,"bf")], [(200,1,"ae")],
    [(300,1,"ae")] as the force-field parser delivers them. *)
Definition records : list (Param Q) :=
  [ mkParam 100 1 "be" (1300 # 1000) None;
    mkParam 100 2 "bf" (5 # 1) None;
    mkParam 200 1 "ae" (109 # 1) None;
    mkParam 300 1 "ae" (120 # 1) None ].

Definition selection_text : string :=
  "100 1" ++ String "010"%char "100 2 neg" ++ String "010"%char "200 1 # comment".

(** The same address twice, the second time without [neg]. *)
Definition twice_text : string :=
  "100 2 neg" ++ String "010"%char "100 2".

(** A line with one token only, after a well-formed one. *)
Definition short_text : string :=
  "100 1 neg" ++ String "010"%char "200".

Definition files (name : string) : option string :=
  if String.eqb name "sel.txt" then Some selection_text
  else if String.eqb name "twice.txt" then Some twice_text
  else if String.eqb name "short.txt" then Some short_text
  else None.

Definition bond_1858 : Param Q := mkParam 1858 1 "be" (1300 # 1000) None.
Definition bond_dic : gmap Z (list Q) := {[ 1858 := [1360 # 1000; 1354 # 1000] ]}.
Definition angle_dic : gmap Z (list Q) := {[ 1858 := [110 # 1; 112 # 1] ]}.

(** A [.mmo] file with two structures: bonds on rows 100 and 1857, an
    angle on row 200. *)
Definition mmo1 : Mmo.MacroModel Q :=
  Mmo.mkMacroModel
    [ Mmo.mkStructure [Mmo.mkDatum 100 (1360 # 1000); Mmo.mkDatum 1857 (2 # 1)]
                      [Mmo.mkDatum 200 (110 # 1)];
      Mmo.mkStructure [Mmo.mkDatum 100 (1354 # 1000)] [] ].

Definition env : Env Q :=
  mkEnv (λ name, if String.eqb name "mm3.fld" then Some records else None)
        files
        (λ name, if String.eqb name "a.mmo" then Some mmo1 else None).

Definition start : State Q := mkState records [].
Definition all_refs : list ref := [0; 1; 2; 3]%nat.

(** [--ptypes ae --pfile sel.txt --mmo a.mmo --check --average out.fld
    --printparams] *)
Definition everything : Opts :=
  mkOpts false (Some "out.fld") true "mm3.fld" (Some ["a.mmo"]) true
         (Some "sel.txt") ["ae"].

(** [--average out.fld] with no [--mmo]. *)
Definition average_without_mmo : Opts :=
  mkOpts false (Some "out.fld") false "mm3.fld" None false None ["be"].
End Scenario.

(** ** More concrete inputs *)

Module Sample.
(** What [--printparams] writes for the first and the third record of the
    scenario. *)
Definition printed : list (Param Q) :=
  [ mkParam 100 1 "be" (1300 # 1000) None; mkParam 200 1 "ae" (109 # 1) None ].

(** A selection file that names the two parameters of row 100. *)
Definition bonds_text : string :=
  "100 1" ++ String "010"%char ("100 2 neg" ++ String "010"%char "").

Definition files (name : string) : option string :=
  if String.eqb name "printed.txt" then Some (address_lines printed)
  else if String.eqb name "bonds.txt" then Some bonds_text
  else Scenario.files name.

Definition env : Env Q :=
  mkEnv (ff_file Scenario.env) files (mmo_file Scenario.env).

(** [--ptypes ae --pfile bonds.txt] *)
Definition angles_and_bonds : Opts :=
  mkOpts false None false "mm3.fld" None false (Some "bonds.txt") ["ae"].

(** [--ptypes be --pfile short.txt --mmo a.mmo --average out.fld] *)
Definition with_short_file : Opts :=
  mkOpts false (Some "out.fld") false "mm3.fld" (Some ["a.mmo"]) false
         (Some "short.txt") ["be"].

(** [--all] *)
Definition all : Opts :=
  mkOpts true None false "mm3.fld" None false None [].

(** The state in which the scenario's force field has just been imported. *)
Definition imported : State Q :=
  mkState Scenario.records [EvImportFF "mm3.fld"].
End Sample.

(** * Properties *)

Local Open Scope list_scope.

Ltac msimpl :=
  unfold mbind, M_bind, mret, M_ret, get_heap, put_heap, update, emit, raise;
  simpl.

Section Properties.
Context {V : Type} `{!Number V}.
Local Abbreviation Param := (Param V).
Local Abbreviation Event := (Event V).
Local Abbreviation State := (State V).
Local Abbreviation Env := (Env V).
Local Abbreviation M := (M V).

(** ** The monad and the heap *)


Lemma bind_ok {A B} (m : M A) (f : A → M B) σ σ' a :
  m σ = (σ', Ok a) → (m ≫= f) σ = f a σ'.
Proof. intros H. unfold mbind, M_bind. by rewrite H. Qed.

Lemma bind_raise {A B} (m : M A) (f : A → M B) σ σ' e :
  m σ = (σ', Raise e) → (m ≫= f) σ = (σ', Raise e).
Proof. intros H. unfold mbind, M_bind. by rewrite H. Qed.

Lemma set_allow_negative_id (p : Param) : set_allow_negative (allow_negative p) p = p.
Proof. by destruct p. Qed.

Lemma state_eta (σ : State) : mkState (heap σ) (trace σ) = σ.
Proof. by destruct σ. Qed.

(** In-place updates of the objects behind a list of references, when the
    update is idempotent: an object is updated iff it is referred to. *)
Lemma lookup_alter_all (f : Param → Param) (params : list ref) (h : list Param) i :
  (∀ p, f (f p) = f p) →
  foldl (λ h' j, alter f j h') h params !! i =
    if bool_decide (i ∈ params) then f <$> h !! i else h !! i.
Proof.
  intros Hf. revert h. induction params as [|j params IH]; intros h; simpl.
  - done.
  - rewrite IH. destruct (decide (i = j)) as [->|Hne].
    + rewrite list_lookup_alter_eq. rewrite (bool_decide_eq_true_2 (j ∈ j :: params)).
      2: { by left. }
      case_bool_decide; [|done].
      destruct (h !! j); simpl; [by rewrite Hf | done].
    + rewrite list_lookup_alter_ne; [|done].
      case_bool_decide as H1; case_bool_decide as H2; try done.
      * exfalso. apply H2. by right.
      * exfalso. apply elem_of_cons in H2 as [?|?]; [done | by apply H1].
Qed.

(** ** Selection by type *)

Lemma view_filter_ptype (h : list Param) ptypes params :
  view h (List.filter (has_ptype h ptypes) params) =
  List.filter (λ p, bool_decide (ptype p ∈ ptypes)) (view h params).
Proof.
  unfold view, omap. induction params as [|i params IH]; simpl; [done|].
  unfold has_ptype at 1. destruct (h !! i) as [p|] eqn:Hi; simpl.
  - destruct (bool_decide (ptype p ∈ ptypes)) eqn:Hp; simpl.
    + rewrite Hi. simpl. by rewrite IH.
    + done.
  - done.
Qed.

Lemma filter_sublist {A} (f : A → bool) (l : list A) : sublist (List.filter f l) l.
Proof.
  induction l as [|x l IH]; simpl; [constructor|].
  destruct (f x); by constructor.
Qed.

Lemma filter_ext_on {A} (f g : A → bool) (l : list A) :
  (∀ x, x ∈ l → f x = g x) → List.filter f l = List.filter g l.
Proof.
  induction l as [|x l IH]; intros H; simpl; [done|].
  rewrite (H x); [|by left]. rewrite IH; [done|].
  intros y Hy. apply H. by right.
Qed.

(** C4. Selection by type returns, without error and without touching the
    state, exactly the parameters whose ptype is one of the requested ones,
    in their original order: the result is a subsequence of the input, the
    objects it denotes are the input's objects filtered by ptype, a
    parameter is in it iff it is in the input with a requested ptype; no
    requested ptype gives the empty list, and a requested string that is
    the ptype of no parameter changes nothing. *)
Theorem trim_params_by_type_selects (σ : State) (params : list ref)
    (ptypes : list string) :
  ∃ chosen,
    trim_params_by_type params ptypes σ = (σ, Ok chosen) ∧
    sublist chosen params ∧
    view (heap σ) chosen =
      List.filter (λ p, bool_decide (ptype p ∈ ptypes)) (view (heap σ) params) ∧
    (∀ i p, heap σ !! i = Some p →
       (i ∈ chosen ↔ i ∈ params ∧ ptype p ∈ ptypes)) ∧
    (ptypes = [] → chosen = []) ∧
    (∀ unknown,
       (∀ p, p ∈ view (heap σ) params → ptype p ≠ unknown) →
       trim_params_by_type params (unknown :: ptypes) σ = (σ, Ok chosen) ∧
       trim_params_by_type params [unknown] σ = (σ, Ok [])).
Proof.
  exists (List.filter (has_ptype (heap σ) ptypes) params).
  split; [done|]. split; [apply filter_sublist|].
  split; [apply view_filter_ptype|]. split; [|split].
  - intros i p Hi. rewrite list_elem_of_In, filter_In, <- list_elem_of_In.
    unfold has_ptype. rewrite Hi, bool_decide_eq_true. done.
  - intros ->. induction params as [|i params IH]; simpl; [done|].
    unfold has_ptype at 1. by destruct (heap σ !! i).
  - intros unknown Hunk.
    assert (Hother : ∀ i p, i ∈ params → heap σ !! i = Some p → ptype p ≠ unknown).
    { intros i p Hi Hp. apply Hunk. unfold view. apply list_elem_of_omap. eauto. }
    split.
    + unfold trim_params_by_type. msimpl. do 2 f_equal.
      apply filter_ext_on. intros i Hi. unfold has_ptype.
      destruct (heap σ !! i) as [p|] eqn:Hp; [|done].
      apply bool_decide_ext. rewrite elem_of_cons.
      specialize (Hother i p Hi Hp).
      split; [intros [?|?]; [congruence | done] | by right].
    + unfold trim_params_by_type. msimpl. do 2 f_equal.
      clear Hunk. induction params as [|i params IH]; simpl; [done|].
      unfold has_ptype at 1. destruct (heap σ !! i) as [p|] eqn:Hp; simpl.
      * rewrite bool_decide_eq_false_2.
        -- apply IH. intros j q Hj. apply Hother. by right.
        -- rewrite list_elem_of_singleton. apply (Hother i p); [by left | done].
      * apply IH. intros j q Hj. apply Hother. by right.
Qed.

(** ** Aggregation *)

Lemma values_of_cons row (d : Mmo.Datum V) ds :
  values_of row (d :: ds) =
    if Mmo.ff_row d =? row then Mmo.value d :: values_of row ds
    else values_of row ds.
Proof. unfold values_of. simpl. by destruct (Mmo.ff_row d =? row). Qed.

Lemma values_of_app row (ds1 ds2 : list (Mmo.Datum V)) :
  values_of row (ds1 ++ ds2) = values_of row ds1 ++ values_of row ds2.
Proof. unfold values_of. by rewrite List.filter_app, map_app. Qed.

(** One more observation: its row's list grows at the end, the others stay. *)
Lemma lookup_add_value (dic : gmap Z (list V)) (d : Mmo.Datum V) row :
  add_value dic d !! row =
    if Mmo.ff_row d =? row
    then Some (default [] (dic !! row) ++ [Mmo.value d])
    else dic !! row.
Proof.
  unfold add_value. destruct (Z.eqb_spec (Mmo.ff_row d) row) as [->|Hne].
  - destruct (dic !! row) as [vs|] eqn:Hrow; by rewrite lookup_insert_eq.
  - destruct (dic !! Mmo.ff_row d); by rewrite lookup_insert_ne.
Qed.

Lemma lookup_fold_add_value (ds : list (Mmo.Datum V)) :
  ∀ (dic : gmap Z (list V)) row,
  fold_left add_value ds dic !! row =
    match dic !! row with
    | Some values => Some (values ++ values_of row ds)
    | None => entry_of row ds
    end.
Proof.
  induction ds as [|d ds IH]; intros dic row; simpl.
  - unfold entry_of, values_of. simpl. destruct (dic !! row); [|done].
    by rewrite app_nil_r.
  - rewrite IH, lookup_add_value. unfold entry_of. rewrite values_of_cons.
    destruct (Mmo.ff_row d =? row).
    + destruct (dic !! row) as [vs|]; simpl; [by rewrite <- app_assoc | done].
    + done.
Qed.

Lemma fold_gather_structure (ss : list (Mmo.Structure V)) : ∀ dics,
  fold_left gather_structure ss dics =
    (fold_left add_value (flat_map Mmo.bonds ss) dics.1,
     fold_left add_value (flat_map Mmo.angles ss) dics.2).
Proof.
  induction ss as [|s ss IH]; intros [b a]; simpl; [done|].
  rewrite IH. simpl. by rewrite !fold_left_app.
Qed.

Lemma fold_gather_mmo (mmos : list (Mmo.MacroModel V)) : ∀ dics,
  fold_left gather_mmo mmos dics =
    (fold_left add_value (all_bonds mmos) dics.1,
     fold_left add_value (all_angles mmos) dics.2).
Proof.
  induction mmos as [|m mmos IH]; intros [b a]; simpl; [done|].
  rewrite IH. unfold gather_mmo. rewrite fold_gather_structure. simpl.
  by rewrite !fold_left_app.
Qed.

(** Every list in a table built by [gather_values] holds a value. *)
Lemma entry_of_nonempty row (ds : list (Mmo.Datum V)) values :
  entry_of row ds = Some values → values ≠ [].
Proof. unfold entry_of. destruct (values_of row ds); [done|]. by intros [= <-]. Qed.

Lemma gather_values_nonempty (mmos : list (Mmo.MacroModel V)) row values :
  (gather_values mmos).1 !! row = Some values ∨
  (gather_values mmos).2 !! row = Some values →
  values ≠ [].
Proof.
  unfold gather_values. rewrite fold_gather_mmo. simpl.
  rewrite !lookup_fold_add_value, !lookup_empty.
  intros [H1|H1]; by eapply entry_of_nonempty.
Qed.

(** C9. [gather_values] yields two tables, one for bonds and one for angles;
    in each, a row is a key iff some observation of that kind carries it,
    and its list is the values of exactly those observations, in traversal
    order, duplicates kept and values unchanged. *)
Theorem gather_values_tables (mmos : list (Mmo.MacroModel V)) (row : Z) :
  (gather_values mmos).1 !! row = entry_of row (all_bonds mmos) ∧
  (gather_values mmos).2 !! row = entry_of row (all_angles mmos) ∧
  (is_Some ((gather_values mmos).1 !! row) ↔
     ∃ d, d ∈ all_bonds mmos ∧ Mmo.ff_row d = row) ∧
  (is_Some ((gather_values mmos).2 !! row) ↔
     ∃ d, d ∈ all_angles mmos ∧ Mmo.ff_row d = row).
Proof.
  assert (Hkey : ∀ ds : list (Mmo.Datum V),
            is_Some (entry_of row ds) ↔ ∃ d, d ∈ ds ∧ Mmo.ff_row d = row).
  { intros ds. unfold entry_of, values_of.
    destruct (List.filter (λ d, Mmo.ff_row d =? row) ds) as [|d l] eqn:Hf; simpl.
    - split; [by intros [? ?]|]. intros (d & Hd & Hrow). exfalso.
      assert (Hin : In d (List.filter (λ d, Mmo.ff_row d =? row) ds)).
      { apply filter_In. split; [by apply list_elem_of_In | by apply Z.eqb_eq]. }
      by rewrite Hf in Hin.
    - split; [|eauto]. intros _.
      assert (Hin : In d (List.filter (λ d, Mmo.ff_row d =? row) ds)).
      { rewrite Hf. by left. }
      apply filter_In in Hin as [Hin Hrow]. exists d.
      split; [by apply list_elem_of_In | by apply Z.eqb_eq]. }
  unfold gather_values. rewrite fold_gather_mmo. simpl.
  rewrite !lookup_fold_add_value, !lookup_empty. by rewrite !Hkey.
Qed.

(** ** Selection by file: the matching loops *)

Lemma matches_set_allow_negative a (p : Param) d :
  matches (set_allow_negative a p) d = matches p d.
Proof. done. Qed.

Lemma matching_set_allow_negative a (p : Param) ds :
  matching (set_allow_negative a p) ds = matching p ds.
Proof. done. Qed.

Lemma matching_flagged ds' (p : Param) ds : matching (flagged ds' p) ds = matching p ds.
Proof. unfold flagged. by destruct (last (matching p ds')). Qed.

Lemma flagged_idem ds (p : Param) : flagged ds (flagged ds p) = flagged ds p.
Proof.
  unfold flagged at 1. rewrite matching_flagged. unfold flagged.
  by destruct (last (matching p ds)).
Qed.

(** A directive in front: it sets the flag first, the others after it. *)
Lemma flagged_cons d ds (p : Param) :
  flagged (d :: ds) p =
    if matches p d then flagged ds (set_allow_negative d.2 p) else flagged ds p.
Proof.
  unfold flagged, matching. simpl. destruct (matches p d) eqn:Hm; [|done].
  rewrite last_cons. fold (matching p ds).
  fold (matching (set_allow_negative d.2 p) ds).
  rewrite matching_set_allow_negative. by destruct (last (matching p ds)).
Qed.

Lemma alter_absent (f : Param → Param) (h : list Param) i :
  h !! i = None → alter f i h = h.
Proof.
  intros Hi. apply list_eq. intros j. destruct (decide (i = j)) as [<-|Hne].
  - by rewrite list_lookup_alter_eq, Hi.
  - by rewrite list_lookup_alter_ne.
Qed.

(** Lines 149-154 for one parameter: one inclusion per directive naming its
    address, and the flag of each such directive written in turn. *)
Lemma match_directives_run i ds : ∀ chosen (σ : State),
  match_directives i ds chosen σ =
    (mkState (alter (flagged ds) i (heap σ)) (trace σ),
     Ok (chosen ++ inclusions (heap σ) ds i)).
Proof.
  induction ds as [|d ds IH]; intros chosen σ.
  - simpl. msimpl. rewrite list_alter_id, state_eta; [|done].
    unfold inclusions. destruct (heap σ !! i); by rewrite app_nil_r.
  - simpl. msimpl. destruct (heap σ !! i) as [p|] eqn:Hi.
    + destruct (matches p d) eqn:Hm.
      * msimpl. rewrite IH. simpl. rewrite list_alter_alter_eq. f_equal.
        -- f_equal. apply list_alter_ext; [|done]. intros q Hq.
           rewrite Hi in Hq. injection Hq as <-. simpl.
           by rewrite flagged_cons, Hm.
        -- f_equal. rewrite <- app_assoc. f_equal.
           unfold inclusions. rewrite list_lookup_alter_eq, Hi. simpl.
           rewrite matching_set_allow_negative.
           unfold matching at 2. simpl. by rewrite Hm.
      * rewrite IH. f_equal.
        -- f_equal. apply list_alter_ext; [|done]. intros q Hq.
           rewrite Hi in Hq. injection Hq as <-. by rewrite flagged_cons, Hm.
        -- unfold inclusions, matching. rewrite Hi. simpl. by rewrite Hm.
    + rewrite IH. f_equal.
      * f_equal. by rewrite !alter_absent.
      * unfold inclusions. by rewrite Hi.
Qed.

Lemma inclusions_alter ds' j (h : list Param) ds i :
  inclusions (alter (flagged ds') j h) ds i = inclusions h ds i.
Proof.
  unfold inclusions. destruct (decide (j = i)) as [->|Hne].
  - rewrite list_lookup_alter_eq. destruct (h !! i); simpl; [|done].
    by rewrite matching_flagged.
  - by rewrite list_lookup_alter_ne.
Qed.

(** Lines 148-154: the parameters in order, each with its inclusions. *)
Lemma match_params_run ds params : ∀ chosen (σ : State),
  match_params params ds chosen σ =
    (mkState (foldl (λ h i, alter (flagged ds) i h) (heap σ) params) (trace σ),
     Ok (chosen ++ flat_map (inclusions (heap σ) ds) params)).
Proof.
  induction params as [|i params IH]; intros chosen σ; simpl.
  - msimpl. by rewrite state_eta, app_nil_r.
  - erewrite bind_ok; [|apply match_directives_run].
    rewrite IH. simpl. f_equal. f_equal. rewrite <- app_assoc. f_equal. f_equal.
    apply flat_map_ext. intros j. apply inclusions_alter.
Qed.

(** The heap after the matching loops, object by object. *)
Lemma lookup_after_matching ds (params : list ref) (h : list Param) (i : ref) :
  foldl (λ h' j, alter (flagged ds) j h') h params !! i =
    if bool_decide (i ∈ params) then flagged ds <$> h !! i else h !! i.
Proof. apply lookup_alter_all. apply flagged_idem. Qed.

(** [trim_params_by_file] on a file that can be read and parsed. *)
Lemma trim_params_by_file_run (env : Env) params filename text ds (σ : State) :
  text_file env filename = Some text →
  read_lines (file_lines text) [] = Ok ds →
  trim_params_by_file env params filename σ =
    (mkState (foldl (λ h i, alter (flagged ds) i h) (heap σ) params)
             (trace σ ++ [EvOpen filename]),
     Ok (flat_map (inclusions (heap σ) ds) params)).
Proof.
  intros Hfile Hread. unfold trim_params_by_file, open_read. msimpl.
  rewrite Hfile. simpl. rewrite Hread. by rewrite match_params_run.
Qed.

(** ** Selection by file: reading the file *)

Lemma digit_of_is_digit c : is_Some (digit_of c) ↔ is_digit c = true.
Proof.
  unfold digit_of, is_digit. simpl.
  destruct (Z.leb_spec 48 (Z.of_N (N_of_ascii c)));
    destruct (Z.leb_spec (Z.of_N (N_of_ascii c)) 57);
    destruct (N.leb_spec 48 (N_of_ascii c));
    destruct (N.leb_spec (N_of_ascii c) 57); simpl;
    try lia; split; try done; try (by intros [? ?]); eauto.
Qed.

Lemma digits_from_is_Some s : ∀ acc,
  is_Some (digits_from acc s) ↔ forallb is_digit (list_ascii_of_string s) = true.
Proof.
  induction s as [|c s IH]; intros acc; simpl.
  - split; eauto.
  - rewrite andb_true_iff, <- digit_of_is_digit.
    destruct (digit_of c) as [d|]; simpl.
    + rewrite IH. split; [eauto | by intros [_ ?]].
    + split; [by intros [? ?] | by intros [[? ?] _]].
Qed.

Lemma unsigned_int_is_Some s : is_Some (unsigned_int s) ↔ all_digits s = true.
Proof.
  unfold unsigned_int, all_digits. destruct s as [|c s].
  - simpl. split; [by intros [? ?] | done].
  - apply digits_from_is_Some.
Qed.

(** [int] accepts exactly the integer tokens. *)
Lemma py_int_is_Some s : is_Some (py_int s) ↔ integer_token s = true.
Proof.
  unfold py_int, integer_token. destruct s as [|c s].
  - split; [by intros [? ?] | done].
  - destruct (Ascii.eqb c "+"); cbn [orb]; [apply unsigned_int_is_Some|].
    destruct (Ascii.eqb c "-"); cbn [orb]; [|apply unsigned_int_is_Some].
    rewrite <- unsigned_int_is_Some. destruct (unsigned_int s); simpl.
    + split; eauto.
    + split; by intros [? ?].
Qed.

Lemma py_int_None s : py_int s = None ↔ integer_token s ≠ true.
Proof.
  rewrite <- py_int_is_Some. split.
  - intros -> [? ?]. done.
  - intros H. destruct (py_int s) eqn:E; [|done]. exfalso. apply H. eauto.
Qed.

(** A line raises iff it is not acceptable, and then with an error of the
    malformed-line kind. *)
Lemma read_line_raise line :
  (∃ e, read_line line = Raise e) ↔ ¬ acceptable line.
Proof.
  unfold read_line, acceptable.
  destruct (py_split (before_hash line)) as [|c0 [|c1 args]].
  - split; [by intros [? ?] | by intros []].
  - split; [by intros _ [] | intros _].
    destruct (py_int c0); eauto.
  - destruct (py_int c0) as [r|] eqn:H0.
    + destruct (py_int c1) as [c|] eqn:H1.
      * split; [by intros [? ?] | intros H]. exfalso. apply H.
        split; apply py_int_is_Some; eauto.
      * split; [|eauto]. intros _ [_ Hc1]. by apply py_int_None in H1.
    + split; [|eauto]. intros _ [Hc0 _]. by apply py_int_None in H0.
Qed.

Lemma read_line_malformed line e :
  read_line line = Raise e → MalformedSelectionLine e.
Proof.
  unfold read_line, MalformedSelectionLine.
  destruct (py_split (before_hash line)) as [|c0 [|c1 args]]; [done| |].
  - destruct (py_int c0); intros [= <-]; eauto.
  - destruct (py_int c0); [|intros [= <-]; eauto].
    destruct (py_int c1); [done|]. intros [= <-]; eauto.
Qed.

Lemma read_lines_raise lines : ∀ temp_params,
  (∃ e, read_lines lines temp_params = Raise e) ↔
  ∃ line, line ∈ lines ∧ ¬ acceptable line.
Proof.
  induction lines as [|line lines IH]; intros temp_params; simpl.
  - split; [by intros [? ?] | by intros (? & ?%elem_of_nil & _)].
  - destruct (read_line line) as [[d|]|e] eqn:Hline.
    + rewrite IH. split.
      * intros (l & Hl & Hbad). exists l. split; [by right | done].
      * intros (l & [->|Hl]%elem_of_cons & Hbad); [|eauto].
        exfalso. apply read_line_raise in Hbad as [e He]. congruence.
    + rewrite IH. split.
      * intros (l & Hl & Hbad). exists l. split; [by right | done].
      * intros (l & [->|Hl]%elem_of_cons & Hbad); [|eauto].
        exfalso. apply read_line_raise in Hbad as [e He]. congruence.
    + split; [intros _ | eauto]. exists line. split; [by left|].
      apply read_line_raise. eauto.
Qed.

Lemma read_lines_malformed lines e : ∀ temp_params,
  read_lines lines temp_params = Raise e → MalformedSelectionLine e.
Proof.
  induction lines as [|line lines IH]; intros temp_params; simpl; [done|].
  destruct (read_line line) as [[d|]|e'] eqn:Hline; [apply IH | apply IH |].
  intros [= <-]. by eapply read_line_malformed.
Qed.

(** C5. On a selection file that can be read, selection by file fails with
    the malformed-line condition iff some line is not acceptable (it is
    neither blank nor a comment, and its first two tokens are not two
    integers); no other failure occurs, and a failure leaves every
    parameter object as it was and returns no selection. *)
Theorem malformed_line_aborts (env : Env) (params : list ref)
    (filename text : string) (σ : State) :
  text_file env filename = Some text →
  ((∃ e, outcome (trim_params_by_file env params filename) σ = Raise e ∧
         MalformedSelectionLine e) ↔
   (∃ line, line ∈ file_lines text ∧ ¬ acceptable line)) ∧
  (∀ e, outcome (trim_params_by_file env params filename) σ = Raise e →
        MalformedSelectionLine e ∧
        heap (state_after (trim_params_by_file env params filename) σ) = heap σ).
Proof.
  intros Hfile. unfold outcome, state_after, trim_params_by_file, open_read.
  msimpl. rewrite Hfile. simpl.
  destruct (read_lines (file_lines text) []) as [ds|e] eqn:Hread.
  - rewrite match_params_run. simpl. split; [|done].
    rewrite <- (read_lines_raise _ []), Hread. split.
    + by intros (e & ? & _).
    + by intros [e ?].
  - simpl. split.
    + rewrite <- (read_lines_raise _ []), Hread. split; [eauto|]. intros _.
      exists e. split; [done|]. by eapply read_lines_malformed.
    + intros e' [= <-]. split; [by eapply read_lines_malformed | done].
Qed.

(** ** Selection by file: what is selected *)

Lemma count_occ_replicate (i j : ref) n :
  count_occ Nat.eq_dec (replicate n j) i = if decide (j = i) then n else 0%nat.
Proof.
  induction n as [|n IH]; simpl.
  - by destruct (decide (j = i)).
  - rewrite IH. destruct (Nat.eq_dec j i); destruct (decide (j = i)); done.
Qed.

Lemma count_occ_inclusions (h : list Param) ds params (i : ref) (p : Param) :
  h !! i = Some p →
  count_occ Nat.eq_dec (flat_map (inclusions h ds) params) i =
    (count_occ Nat.eq_dec params i * length (matching p ds))%nat.
Proof.
  intros Hi. induction params as [|j params IH]; simpl; [done|].
  rewrite count_occ_app, IH. destruct (Nat.eq_dec j i) as [->|Hne].
  - unfold inclusions. rewrite Hi, count_occ_replicate.
    rewrite decide_True; [lia | done].
  - unfold inclusions. destruct (h !! j); simpl; [|done].
    rewrite count_occ_replicate. rewrite decide_False; done.
Qed.

(** One iteration of the inner loop on a directive that names the address
    of the parameter. *)
Lemma match_directives_one i d chosen (σ : State) (p : Param) :
  heap σ !! i = Some p → matches p d = true →
  match_directives i [d] chosen σ =
    (mkState (<[i := set_allow_negative d.2 p]> (heap σ)) (trace σ),
     Ok (chosen ++ [i])).
Proof.
  intros Hi Hm. rewrite match_directives_run. f_equal.
  - f_equal. apply list_eq. intros j. destruct (decide (i = j)) as [<-|Hne].
    + rewrite list_lookup_alter_eq, Hi, list_lookup_insert_eq.
      * simpl. by rewrite flagged_cons, Hm.
      * by eapply lookup_lt_Some.
    + by rewrite list_lookup_alter_ne, list_lookup_insert_ne.
  - unfold inclusions, matching. rewrite Hi. simpl. by rewrite Hm.
Qed.

(** C2. Selection by file, on a file that reads as the directives [ds]:
    every parameter is included once per directive that names its address,
    in the order of the parameters (nothing is removed when directives
    repeat an address); each match writes the flag of its directive, which
    is [None] when the line has no neg token, so a parameter whose matching
    directives agree on a flag ends with that flag, and one that no
    directive names is left alone; [main] appends this selection to the
    selection by type as it is.  On the four records of the scenario the
    result is [(100,1), (100,2), (200,1)], only (100,2) being flagged. *)
Theorem trim_params_by_file_includes (env : Env) (params : list ref)
    (filename text : string) (ds : list Directive) (σ : State) :
  text_file env filename = Some text →
  read_lines (file_lines text) [] = Ok ds →
  ∃ σ' chosen,
    trim_params_by_file env params filename σ = (σ', Ok chosen) ∧
    chosen = flat_map (inclusions (heap σ) ds) params ∧
    (∀ i p, heap σ !! i = Some p →
       count_occ Nat.eq_dec chosen i =
         (count_occ Nat.eq_dec params i * length (matching p ds))%nat) ∧
    (∀ i p d chosen0 (σ0 : State), heap σ0 !! i = Some p → matches p d = true →
       match_directives i [d] chosen0 σ0 =
         (mkState (<[i := set_allow_negative d.2 p]> (heap σ0)) (trace σ0),
          Ok (chosen0 ++ [i]))) ∧
    (∀ i p a, i ∈ params → heap σ !! i = Some p →
       matching p ds ≠ [] → (∀ d, d ∈ matching p ds → d.2 = a) →
       heap σ' !! i = Some (set_allow_negative a p)) ∧
    (∀ i p, heap σ !! i = Some p → matching p ds = [] → heap σ' !! i = Some p) ∧
    (∀ opts, opt_pfile opts = Some filename → given (Some filename) = true →
       requested_ptypes opts ≠ [] →
       select_params env opts params σ =
         (σ', Ok (List.filter (has_ptype (heap σ) (requested_ptypes opts)) params
                  ++ chosen))) ∧
    trim_params_by_file Scenario.env Scenario.all_refs "sel.txt" Scenario.start =
      (mkState [ mkParam 100 1 "be" (1300 # 1000) None;
                 mkParam 100 2 "bf" (5 # 1) (Some true);
                 mkParam 200 1 "ae" (109 # 1) None;
                 mkParam 300 1 "ae" (120 # 1) None ]
               [EvOpen "sel.txt"],
       Ok [0; 1; 2]%nat).
Proof.
  intros Hfile Hread. eexists _, _.
  split; [by apply trim_params_by_file_run with (text := text)|].
  split; [done|]. split; [|split; [|split; [|split; [|split]]]].
  - intros i p Hi. by apply count_occ_inclusions.
  - intros i p d chosen0 σ0. apply match_directives_one.
  - intros i p a Hin Hi Hne Hall. simpl. rewrite lookup_after_matching.
    rewrite bool_decide_eq_true_2, Hi; [|done]. simpl. f_equal.
    unfold flagged. destruct (last (matching p ds)) as [d|] eqn:Hlast.
    + rewrite <- (Hall d); [done|]. by eapply last_Some_elem_of.
    + by apply last_None in Hlast.
  - intros i p Hi Hnone. simpl. rewrite lookup_after_matching, Hi.
    case_bool_decide; [|done]. simpl. unfold flagged. by rewrite Hnone.
  - intros opts Hpfile Hgiven Hreq. unfold select_params.
    destruct (requested_ptypes opts) as [|t ts] eqn:Hts; [done|].
    erewrite bind_ok; [|reflexivity]. rewrite Hpfile, Hgiven. simpl.
    erewrite bind_ok; [|by apply trim_params_by_file_run with (text := text)].
    done.
  - by vm_compute.
Qed.

(** ** Selection by file: aliasing *)

(** Through a heap in which every reference of a list denotes an object,
    the list is seen entry by entry. *)
Lemma view_lookup (h : list Param) (l : list ref) :
  Forall (λ j, is_Some (h !! j)) l →
  ∀ k j, l !! k = Some j → view h l !! k = h !! j.
Proof.
  unfold view, omap. induction 1 as [|j0 l [q Hq] Hl IH]; intros k j Hk.
  - by rewrite lookup_nil in Hk.
  - simpl. rewrite Hq. destruct k as [|k]; simpl in *.
    + by injection Hk as <-.
    + by apply IH.
Qed.

Lemma inclusions_valid (h : list Param) ds (params : list ref) :
  Forall (λ j, is_Some (h !! j)) (flat_map (inclusions h ds) params).
Proof.
  apply Forall_forall. intros j Hj. apply list_elem_of_In, in_flat_map in Hj.
  destruct Hj as (i & _ & Hj). unfold inclusions in Hj.
  destruct (h !! i) as [p|] eqn:Hi; [|done].
  apply list_elem_of_In, elem_of_replicate_inv in Hj. subst j. eauto.
Qed.

(** C10. When directives name the address of a parameter more than once,
    each match overwrites the flag: after selection by file the object
    carries the flag of the last such directive in file order ([None] if
    that line has no neg token), and every inclusion of the parameter in
    the result denotes that one object, so all of them show this flag. *)
Theorem last_directive_wins (env : Env) (params : list ref)
    (filename text : string) (ds : list Directive) (σ : State)
    (i : ref) (p : Param) (d : Directive) :
  text_file env filename = Some text →
  read_lines (file_lines text) [] = Ok ds →
  i ∈ params →
  heap σ !! i = Some p →
  last (matching p ds) = Some d →
  ∃ σ' chosen,
    trim_params_by_file env params filename σ = (σ', Ok chosen) ∧
    heap σ' !! i = Some (set_allow_negative d.2 p) ∧
    count_occ Nat.eq_dec chosen i =
      (count_occ Nat.eq_dec params i * length (matching p ds))%nat ∧
    (∀ k, chosen !! k = Some i →
       view (heap σ') chosen !! k = Some (set_allow_negative d.2 p)).
Proof.
  intros Hfile Hread Hin Hi Hlast. eexists _, _.
  split; [by apply trim_params_by_file_run with (text := text)|].
  assert (Hfinal :
    foldl (λ h j, alter (flagged ds) j h) (heap σ) params !! i =
      Some (set_allow_negative d.2 p)).
  { rewrite lookup_after_matching, bool_decide_eq_true_2, Hi; [|done].
    simpl. unfold flagged. by rewrite Hlast. }
  split; [exact Hfinal|]. split; [by apply count_occ_inclusions|].
  intros k Hk. simpl. erewrite view_lookup; [exact Hfinal| |exact Hk].
  eapply Forall_impl; [apply inclusions_valid|]. intros j [q Hq]. simpl.
  rewrite lookup_after_matching, Hq. case_bool_decide; simpl; eauto.
Qed.

(** ** Averaging *)

Lemma overridden_row (avg : gmap Z V) (p : Param) : mm3_row (overridden avg p) = mm3_row p.
Proof.
  unfold overridden. destruct (eligible p); [|done].
  by destruct (avg !! mm3_row p).
Qed.

Lemma overridden_eligible (avg : gmap Z V) (p : Param) : eligible (overridden avg p) = eligible p.
Proof.
  unfold overridden. destruct (eligible p) eqn:He; [|done].
  by destruct (avg !! mm3_row p).
Qed.

Lemma overridden_idem (avg : gmap Z V) (p : Param) :
  overridden avg (overridden avg p) = overridden avg p.
Proof.
  unfold overridden at 1. rewrite overridden_eligible, overridden_row.
  unfold overridden. destruct (eligible p); [|done].
  by destruct (avg !! mm3_row p).
Qed.

Lemma averaged_idem (bond_dic angle_dic : gmap Z (list V)) (p : Param) :
  averaged bond_dic angle_dic (averaged bond_dic angle_dic p) =
  averaged bond_dic angle_dic p.
Proof.
  unfold averaged, overridden. simpl.
  destruct (eligible p) eqn:He; simpl; rewrite ?He; simpl; [|done].
  destruct ((np_mean <$> bond_dic) !! mm3_row p) as [b|] eqn:Hb;
    unfold eligible in *; simpl; rewrite ?He; simpl;
    destruct ((np_mean <$> angle_dic) !! mm3_row p) as [a|] eqn:Ha;
    simpl; rewrite ?He, ?Hb, ?Ha; simpl; rewrite ?He, ?Ha; done.
Qed.

(** Lines 243-244 (or 245-246) on the object behind a reference. *)
Lemma override_from_run (avg : gmap Z V) i (σ : State) :
  override_from avg i σ =
    (mkState (alter (overridden avg) i (heap σ)) (trace σ), Ok tt).
Proof.
  unfold override_from. msimpl. destruct (heap σ !! i) as [p|] eqn:Hi.
  - fold (eligible p). destruct (eligible p) eqn:He.
    + destruct (avg !! mm3_row p) as [v|] eqn:Hv; msimpl.
      * do 2 f_equal. apply list_alter_ext; [|done]. intros q Hq.
        rewrite Hi in Hq. injection Hq as <-. unfold overridden.
        by rewrite He, Hv.
      * rewrite <- (state_eta σ) at 1. do 2 f_equal. symmetry.
        rewrite <- (list_alter_id id (heap σ) i) at 2; [|done].
        apply list_alter_ext; [|done]. intros q Hq.
        rewrite Hi in Hq. injection Hq as <-. unfold overridden.
        by rewrite He, Hv.
    + rewrite <- (state_eta σ) at 1. do 2 f_equal. symmetry.
      rewrite <- (list_alter_id id (heap σ) i) at 2; [|done].
      apply list_alter_ext; [|done]. intros q Hq.
      rewrite Hi in Hq. injection Hq as <-. unfold overridden. by rewrite He.
  - rewrite alter_absent; [|done]. by rewrite state_eta.
Qed.

(** Lines 242-246: every chosen object is averaged in place. *)
Lemma for_each_override_run (bond_dic angle_dic : gmap Z (list V)) params :
  ∀ σ : State,
  for_each params (λ param,
      override_from (np_mean <$> bond_dic) param ;;
      override_from (np_mean <$> angle_dic) param) σ =
    (mkState (foldl (λ h i, alter (averaged bond_dic angle_dic) i h) (heap σ) params)
             (trace σ), Ok tt).
Proof.
  induction params as [|i params IH]; intros σ; simpl.
  - msimpl. by rewrite state_eta.
  - erewrite bind_ok.
    2: { erewrite bind_ok; [|apply override_from_run]. apply override_from_run. }
    rewrite IH. simpl. by rewrite list_alter_alter_eq.
Qed.

Lemma average_params_run (bond_dic angle_dic : gmap Z (list V)) params
    (σ : State) :
  average_params bond_dic angle_dic params σ =
    (mkState (foldl (λ h i, alter (averaged bond_dic angle_dic) i h) (heap σ) params)
             (trace σ), Ok tt).
Proof. apply for_each_override_run. Qed.

Lemma lookup_after_averaging (bond_dic angle_dic : gmap Z (list V))
    (params : list ref)
    (h : list Param) (i : ref) :
  foldl (λ h' j, alter (averaged bond_dic angle_dic) j h') h params !! i =
    if bool_decide (i ∈ params) then averaged bond_dic angle_dic <$> h !! i
    else h !! i.
Proof. apply lookup_alter_all. apply averaged_idem. Qed.

Lemma eligible_true (p : Param) : eligible p = true ↔ ptype p ∈ ["be"; "ae"].
Proof. unfold eligible. apply bool_decide_eq_true. Qed.

Lemma eligible_false (p : Param) : eligible p = false ↔ ptype p ∉ ["be"; "ae"].
Proof. unfold eligible. apply bool_decide_eq_false. Qed.

(** One statement on an eligible record whose row is a key of the table. *)
Lemma override_from_mean (dic : gmap Z (list V)) i (σ : State) (p : Param)
    values :
  heap σ !! i = Some p → ptype p ∈ ["be"; "ae"] →
  dic !! mm3_row p = Some values →
  override_from (np_mean <$> dic) i σ =
    (mkState (<[i := set_value (np_mean values) p]> (heap σ)) (trace σ), Ok tt).
Proof.
  intros Hi He Hrow. rewrite override_from_run. do 2 f_equal.
  apply list_eq. intros j. destruct (decide (i = j)) as [<-|Hne].
  - rewrite list_lookup_alter_eq, Hi, list_lookup_insert_eq.
    + simpl. unfold overridden. apply eligible_true in He.
      by rewrite He, lookup_fmap, Hrow.
    + by eapply lookup_lt_Some.
  - by rewrite list_lookup_alter_ne, list_lookup_insert_ne.
Qed.

Lemma averaged_angle (bond_dic angle_dic : gmap Z (list V)) (p : Param)
    values :
  ptype p ∈ ["be"; "ae"] → angle_dic !! mm3_row p = Some values →
  averaged bond_dic angle_dic p = set_value (np_mean values) p.
Proof.
  intros He Hrow. apply eligible_true in He. unfold averaged.
  unfold overridden at 1. rewrite overridden_eligible, overridden_row, He.
  rewrite lookup_fmap, Hrow. simpl. unfold overridden. rewrite He.
  by destruct ((np_mean <$> bond_dic) !! mm3_row p).
Qed.


Lemma averaged_other (bond_dic angle_dic : gmap Z (list V)) (p : Param) :
  ptype p ∉ ["be"; "ae"] → averaged bond_dic angle_dic p = p.
Proof.
  intros He. apply eligible_false in He. unfold averaged, overridden.
  by rewrite He, He.
Qed.

Lemma averaged_unobserved (bond_dic angle_dic : gmap Z (list V)) (p : Param) :
  bond_dic !! mm3_row p = None → angle_dic !! mm3_row p = None →
  averaged bond_dic angle_dic p = p.
Proof.
  intros Hb Ha.
  assert (Hno : ∀ dic : gmap Z (list V), dic !! mm3_row p = None →
                overridden (np_mean <$> dic) p = p).
  { intros dic Hdic. unfold overridden. rewrite lookup_fmap, Hdic. simpl.
    by destruct (eligible p). }
  unfold averaged. by rewrite (Hno bond_dic Hb), (Hno angle_dic Ha).
Qed.


(** C3. A row that is a key of both tables: on a chosen record of ptype be
    or ae with that row, the bond statement writes the bond mean, the angle
    statement then overwrites it, and after averaging the record holds the
    angle mean. *)
Theorem angle_mean_wins (bond_dic angle_dic : gmap Z (list V))
    (params : list ref) (σ : State) (i : ref) (p : Param)
    (bond_values angle_values : list V) :
  i ∈ params →
  heap σ !! i = Some p →
  ptype p ∈ ["be"; "ae"] →
  bond_dic !! mm3_row p = Some bond_values →
  angle_dic !! mm3_row p = Some angle_values →
  (∃ σ1 σ2,
     override_from (np_mean <$> bond_dic) i σ = (σ1, Ok tt) ∧
     heap σ1 !! i = Some (set_value (np_mean bond_values) p) ∧
     override_from (np_mean <$> angle_dic) i σ1 = (σ2, Ok tt) ∧
     heap σ2 !! i = Some (set_value (np_mean angle_values) p)) ∧
  heap (state_after (average_params bond_dic angle_dic params) σ) !! i =
    Some (set_value (np_mean angle_values) p).
Proof.
  intros Hin Hi He Hb Ha. split.
  - assert (Hlt : (i < length (heap σ))%nat) by (by eapply lookup_lt_Some).
    eexists _, _. split; [by eapply override_from_mean|]. simpl.
    split; [by rewrite list_lookup_insert_eq|].
    split.
    + eapply override_from_mean; simpl.
      * by rewrite list_lookup_insert_eq.
      * done.
      * exact Ha.
    + simpl. rewrite list_lookup_insert_eq; [done|]. by rewrite length_insert.
  - unfold state_after. rewrite average_params_run. simpl.
    rewrite lookup_after_averaging, bool_decide_eq_true_2, Hi; [|done]. simpl.
    f_equal. by apply averaged_angle.
Qed.

(** C8. Averaging leaves a chosen record exactly as it was, whatever the
    tables hold, when its ptype is neither be nor ae, and when its row is a
    key of neither table. *)
Theorem averaging_leaves_others (bond_dic angle_dic : gmap Z (list V))
    (params : list ref) (σ : State) (i : ref) (p : Param) :
  i ∈ params →
  heap σ !! i = Some p →
  ptype p ∉ ["be"; "ae"] ∨
    (bond_dic !! mm3_row p = None ∧ angle_dic !! mm3_row p = None) →
  heap (state_after (average_params bond_dic angle_dic params) σ) !! i = Some p.
Proof.
  intros Hin Hi Hcase. unfold state_after. rewrite average_params_run. simpl.
  rewrite lookup_after_averaging, bool_decide_eq_true_2, Hi; [|done]. simpl.
  f_equal. destruct Hcase as [He|[Hb Ha]].
  - by apply averaged_other.
  - by apply averaged_unobserved.
Qed.

(** ** Usage check *)

Lemma elem_of_keys (m : gmap Z (list V)) (row : Z) :
  row ∈ (map_to_list m).*1 ↔ row ∈ dom m.
Proof.
  rewrite elem_of_dom, list_elem_of_fmap. split.
  - intros ([k v] & -> & Hkv). apply elem_of_map_to_list in Hkv. eauto.
  - intros [v Hv]. exists (row, v). split; [done|]. by apply elem_of_map_to_list.
Qed.

(** [param.mm3_row in all_rows] is membership in the union of the keys. *)
Lemma in_all_rows (bond_dic angle_dic : gmap Z (list V)) (p : Param) :
  bool_decide (mm3_row p ∈ (map_to_list bond_dic).*1 ++ (map_to_list angle_dic).*1) =
  in_use bond_dic angle_dic p.
Proof.
  unfold in_use. apply bool_decide_ext.
  by rewrite elem_of_app, elem_of_union, !elem_of_keys.
Qed.

Lemma check_usage_run (bond_dic angle_dic : gmap Z (list V)) params :
  ∀ σ : State,
  check_usage bond_dic angle_dic params σ =
    (mkState (heap σ)
             (trace σ ++ map EvNotInUse (not_in_use bond_dic angle_dic (heap σ) params)),
     Ok tt).
Proof.
  unfold check_usage, not_in_use, view, omap.
  induction params as [|i params IH]; intros σ; simpl.
  - msimpl. by rewrite app_nil_r, state_eta.
  - msimpl. destruct (heap σ !! i) as [p|] eqn:Hi; simpl.
    + rewrite in_all_rows. destruct (in_use bond_dic angle_dic p); simpl.
      * apply IH.
      * msimpl. rewrite IH. simpl. by rewrite <- app_assoc.
    + apply IH.
Qed.

(** C7. The usage check touches no record and reports, in order, exactly the
    chosen records whose row is a key of neither table: a chosen record is
    reported iff its row is outside the union of the two key sets, one whose
    row is a key of either table is never reported, and two records with the
    same row are treated alike whatever their columns. *)
Theorem check_usage_reports (bond_dic angle_dic : gmap Z (list V))
    (params : list ref) (σ : State) :
  check_usage bond_dic angle_dic params σ =
    (mkState (heap σ)
             (trace σ ++ map EvNotInUse (not_in_use bond_dic angle_dic (heap σ) params)),
     Ok tt) ∧
  (∀ p, p ∈ not_in_use bond_dic angle_dic (heap σ) params ↔
        p ∈ view (heap σ) params ∧ mm3_row p ∉ dom bond_dic ∪ dom angle_dic) ∧
  (∀ p, is_Some (bond_dic !! mm3_row p) ∨ is_Some (angle_dic !! mm3_row p) →
        p ∉ not_in_use bond_dic angle_dic (heap σ) params) ∧
  (∀ p q, mm3_row p = mm3_row q →
        in_use bond_dic angle_dic p = in_use bond_dic angle_dic q).
Proof.
  assert (Hrep : ∀ p, p ∈ not_in_use bond_dic angle_dic (heap σ) params ↔
        p ∈ view (heap σ) params ∧ mm3_row p ∉ dom bond_dic ∪ dom angle_dic).
  { intros p. unfold not_in_use.
    rewrite list_elem_of_In, filter_In, <- list_elem_of_In.
    unfold in_use. by rewrite negb_true_iff, bool_decide_eq_false. }
  split; [apply check_usage_run|]. split; [exact Hrep|]. split.
  - intros p Hkey [_ Hout]%Hrep. apply Hout.
    rewrite elem_of_union, !elem_of_dom. exact Hkey.
  - intros p q Hrow. unfold in_use. by rewrite Hrow.
Qed.

(** ** [main] *)

(** C6. When averaging or the usage check is requested and no structure file
    is supplied ([opts.mmo] is absent or empty), [main] raises the
    assertion error at once: the state is untouched, so nothing has been
    read, parsed, printed or written, and no parameter object exists yet
    beyond those there were. *)
Theorem missing_mmo_raises_first (env : Env) (opts : Opts) (σ : State) :
  given (opt_average opts) || opt_check opts = true →
  supplied (opt_mmo opts) = false →
  main env opts σ = (σ, Raise AssertionError) ∧
  MissingRequiredInput AssertionError ∧
  trace (state_after (main env opts) σ) = trace σ ∧
  heap (state_after (main env opts) σ) = heap σ.
Proof.
  intros Hreq Hmmo.
  assert (Hmain : main env opts σ = (σ, Raise AssertionError)).
  { unfold main. rewrite Hreq, Hmmo. reflexivity. }
  unfold state_after. by rewrite Hmain.
Qed.

(** * Further properties *)

(** ** The flag of a directive *)

Lemma append_cons (c : ascii) (s t : string) :
  (String c s ++ t)%string = String c (s ++ t)%string.
Proof. reflexivity. Qed.

Lemma append_empty (t : string) : (EmptyString ++ t)%string = t.
Proof. reflexivity. Qed.

Lemma prefix_occurs (sub s : string) :
  String.prefix sub s = true ↔ ∃ after : string, s = (sub ++ after)%string.
Proof.
  revert s. induction sub as [|a sub IH]; intros [|b s]; simpl.
  - split; [intros _; by exists EmptyString | done].
  - split; [intros _; by exists (String b s) | done].
  - split; [done | by intros [? ?]].
  - destruct (ascii_dec a b) as [->|Hne].
    + rewrite IH. split; intros [after Hs]; exists after;
        rewrite append_cons in *; congruence.
    + split; [done|]. intros [after Hs]. rewrite append_cons in Hs. congruence.
Qed.

(** [sub in s] holds exactly when [sub] occurs in [s]. *)
Lemma contains_occurs (sub s : string) :
  contains sub s = true ↔ occurs_in sub s.
Proof.
  unfold occurs_in. induction s as [|c s IH]; unfold contains; fold contains.
  - rewrite orb_false_r, prefix_occurs. split.
    + intros [after Hs]. by exists EmptyString, after.
    + intros ([|b before] & after & Hs); [eauto | by rewrite append_cons in Hs].
  - rewrite orb_true_iff, prefix_occurs, IH. split.
    + intros [[after Hs]|(before & after & Hs)].
      * by exists EmptyString, after.
      * exists (String c before), after. by rewrite append_cons, Hs.
    + intros ([|b before] & after & Hs).
      * left. eauto.
      * right. exists before, after. rewrite append_cons in Hs. congruence.
Qed.

Lemma neg_flag_from (args : list string) : ∀ allow,
  fold_left (λ allow arg, if contains "neg" arg then Some true else allow)
            args allow =
    if existsb (contains "neg") args then Some true else allow.
Proof.
  induction args as [|arg args IH]; intros allow; simpl; [done|].
  rewrite IH. destruct (contains "neg" arg); simpl; [|done].
  by destruct (existsb (contains "neg") args).
Qed.

(** X1. The flag a line gives its directive is [True] exactly when one of
    the tokens after the first two contains neg, and [None] otherwise; it
    is never [False]. *)
Theorem read_line_flag (line : string) (row col : Z) (flag : option bool) :
  read_line line = Ok (Some (row, col, flag)) →
  (flag = Some true ↔
     ∃ arg, arg ∈ drop 2 (py_split (before_hash line)) ∧ occurs_in "neg" arg) ∧
  (flag = None ↔
     ∀ arg, arg ∈ drop 2 (py_split (before_hash line)) → ¬ occurs_in "neg" arg) ∧
  flag ≠ Some false.
Proof.
  unfold read_line.
  destruct (py_split (before_hash line)) as [|c0 [|c1 args]]; [done| |].
  { by destruct (py_int c0). }
  destruct (py_int c0); [|done]. destruct (py_int c1); [|done].
  intros [= _ _ <-]. simpl. unfold neg_flag. rewrite neg_flag_from.
  destruct (existsb (contains "neg") args) eqn:Hex.
  - apply existsb_exists in Hex as (arg & Hin & Harg).
    apply list_elem_of_In in Hin. apply contains_occurs in Harg.
    split; [split; eauto|]. split; [|done]. split; [done|].
    intros Hall. by destruct (Hall arg Hin).
  - split; [|split; [|done]].
    + split; [done|]. intros (arg & Hin & Harg). exfalso.
      apply contains_occurs in Harg. apply list_elem_of_In in Hin.
      assert (existsb (contains "neg") args = true) by (apply existsb_exists; eauto).
      congruence.
    + split; [|done]. intros _ arg Hin Harg.
      apply contains_occurs in Harg. apply list_elem_of_In in Hin.
      assert (existsb (contains "neg") args = true) by (apply existsb_exists; eauto).
      congruence.
Qed.

(** ** Printed addresses read back *)

Lemma append_assoc (s t u : string) :
  ((s ++ t) ++ u)%string = (s ++ (t ++ u))%string.
Proof.
  induction s as [|c s IH]; [done|]. by rewrite !append_cons, IH.
Qed.

Lemma append_empty_r (s : string) : (s ++ EmptyString)%string = s.
Proof. induction s as [|c s IH]; [done|]. by rewrite append_cons, IH. Qed.

Lemma all_chars_append ok (s t : string) :
  all_chars ok (s ++ t)%string = all_chars ok s && all_chars ok t.
Proof.
  induction s as [|c s IH]; [done|].
  rewrite append_cons. simpl. by rewrite IH, andb_assoc.
Qed.

Lemma all_chars_impl (ok ok' : ascii → bool) (s : string) :
  (∀ c, ok c = true → ok' c = true) →
  all_chars ok s = true → all_chars ok' s = true.
Proof.
  intros Himpl. induction s as [|c s IH]; simpl; [done|].
  rewrite !andb_true_iff. intros [Hc Hs]. split; [by apply Himpl | by apply IH].
Qed.

Lemma token_char_line_char c : token_char c = true → line_char c = true.
Proof.
  unfold token_char, line_char. destruct (Ascii.eqb_spec c "010") as [->|]; done.
Qed.

(** The digits of a number, read by the loop of [int]. *)
Lemma digits_from_acc u : ∀ acc : positive,
  digits_from (Zpos acc) (DecimalString.NilEmpty.string_of_uint u) =
    Some (Zpos (Pos.of_uint_acc u acc)).
Proof.
  induction u as [|u IH|u IH|u IH|u IH|u IH|u IH|u IH|u IH|u IH|u IH]; intros acc;
    cbn [DecimalString.NilEmpty.string_of_uint digits_from Pos.of_uint_acc];
    [reflexivity| ..];
    (match goal with |- context [digit_of ?c] =>
       let d := eval vm_compute in (digit_of c) in change (digit_of c) with d end);
    rewrite <- IH; f_equal; lia.
Qed.

Lemma digits_from_zero u :
  digits_from 0 (DecimalString.NilEmpty.string_of_uint u) =
    Some (Z.of_N (Pos.of_uint u)).
Proof.
  induction u as [|u IH|u IH|u IH|u IH|u IH|u IH|u IH|u IH|u IH|u IH];
    cbn [DecimalString.NilEmpty.string_of_uint digits_from Pos.of_uint];
    [reflexivity| ..];
    (match goal with |- context [digit_of ?c] =>
       let d := eval vm_compute in (digit_of c) in change (digit_of c) with d end);
    [exact IH | ..]; cbn [Z.of_N]; rewrite <- digits_from_acc; f_equal.
Qed.

Lemma string_of_uint_tokens u :
  all_chars token_char (DecimalString.NilEmpty.string_of_uint u) = true.
Proof.
  induction u as [|u IH|u IH|u IH|u IH|u IH|u IH|u IH|u IH|u IH|u IH];
    cbn [DecimalString.NilEmpty.string_of_uint all_chars]; [done| ..];
    by rewrite IH.
Qed.

Lemma unsigned_int_to_uint (q : positive) :
  unsigned_int (DecimalString.NilEmpty.string_of_uint (Pos.to_uint q)) =
    Some (Zpos q).
Proof.
  pose proof (DecimalPos.Unsigned.to_uint_nonnil q) as Hnil.
  pose proof (digits_from_zero (Pos.to_uint q)) as Hd.
  rewrite DecimalPos.Unsigned.of_to in Hd. simpl in Hd.
  unfold unsigned_int.
  by destruct (DecimalString.NilEmpty.string_of_uint (Pos.to_uint q)) eqn:Hs;
    [destruct (Pos.to_uint q) | ].
Qed.

Lemma py_str_pos (q : positive) :
  py_str (Zpos q) = DecimalString.NilEmpty.string_of_uint (Pos.to_uint q).
Proof.
  unfold py_str. simpl. unfold DecimalString.NilZero.string_of_uint.
  pose proof (DecimalPos.Unsigned.to_uint_nonnil q).
  by destruct (Pos.to_uint q).
Qed.

Lemma py_str_neg (q : positive) :
  py_str (Zneg q) =
    String "-" (DecimalString.NilEmpty.string_of_uint (Pos.to_uint q)).
Proof.
  unfold py_str. simpl. unfold DecimalString.NilZero.string_of_uint.
  pose proof (DecimalPos.Unsigned.to_uint_nonnil q).
  by destruct (Pos.to_uint q).
Qed.

(** [int(str(n))] is [n]. *)
Lemma py_int_py_str (n : Z) : py_int (py_str n) = Some n.
Proof.
  destruct n as [|q|q].
  - reflexivity.
  - rewrite py_str_pos. pose proof (unsigned_int_to_uint q) as Hu.
    unfold py_int.
    destruct (DecimalString.NilEmpty.string_of_uint (Pos.to_uint q))
      as [|c s] eqn:Hs; [done|].
    pose proof (string_of_uint_tokens (Pos.to_uint q)) as Ht.
    rewrite Hs in Ht. simpl in Ht. apply andb_true_iff in Ht as [Hc _].
    destruct (Ascii.eqb_spec c "+") as [->|_].
    { exfalso. clear -Hs. by destruct (Pos.to_uint q). }
    destruct (Ascii.eqb_spec c "-") as [->|_]; [|done].
    exfalso. clear -Hs. by destruct (Pos.to_uint q).
  - rewrite py_str_neg. unfold py_int.
    change (Ascii.eqb "-" "+") with false. change (Ascii.eqb "-" "-") with true.
    cbn iota. by rewrite unsigned_int_to_uint.
Qed.

Lemma py_str_tokens (n : Z) :
  all_chars token_char (py_str n) = true ∧ py_str n ≠ EmptyString.
Proof.
  destruct n as [|q|q].
  - done.
  - rewrite py_str_pos. split; [apply string_of_uint_tokens|].
    pose proof (DecimalPos.Unsigned.to_uint_nonnil q). by destruct (Pos.to_uint q).
  - rewrite py_str_neg. split; [|done]. simpl. apply string_of_uint_tokens.
Qed.

Lemma before_hash_tokens (s t : string) :
  all_chars token_char s = true →
  before_hash (s ++ t)%string = (s ++ before_hash t)%string.
Proof.
  induction s as [|c s IH]; [done|]. simpl. rewrite andb_true_iff.
  intros [Hc Hs]. rewrite !append_cons. simpl.
  unfold token_char in Hc. apply andb_true_iff in Hc as [_ Hc].
  apply negb_true_iff in Hc. by rewrite Hc, IH.
Qed.

Lemma split_from_tokens (s : string) : ∀ cur rest,
  all_chars token_char s = true →
  split_from cur (s ++ rest)%string = split_from (cur ++ s)%string rest.
Proof.
  induction s as [|c s IH]; intros cur rest.
  - intros _. by rewrite append_empty, append_empty_r.
  - cbn [all_chars]. rewrite andb_true_iff. intros [Hc Hs].
    rewrite append_cons. cbn [split_from].
    unfold token_char in Hc. apply andb_true_iff in Hc as [Hc _].
    apply negb_true_iff in Hc. rewrite Hc, IH; [|done].
    by rewrite append_assoc.
Qed.

Lemma split_from_space (cur rest : string) (c : ascii) :
  is_space c = true → cur ≠ EmptyString →
  split_from cur (String c rest) = cur :: split_from EmptyString rest.
Proof. intros Hc Hcur. simpl. rewrite Hc. by destruct cur. Qed.

(** A printed line, read as a line of a parameter file. *)
Lemma read_line_format_address (row col : Z) :
  read_line (format_address row col ++ String "010" EmptyString)%string =
    Ok (Some (row, col, None)).
Proof.
  destruct (py_str_tokens row) as [Hrow Hrow'].
  destruct (py_str_tokens col) as [Hcol Hcol'].
  unfold read_line, format_address. rewrite append_assoc, append_cons.
  rewrite before_hash_tokens; [|done].
  change (before_hash (String " " (py_str col ++ String "010" EmptyString)))
    with (String " " (before_hash (py_str col ++ String "010" EmptyString))).
  rewrite before_hash_tokens; [|done].
  change (before_hash (String "010" EmptyString)) with (String "010" EmptyString).
  unfold py_split. rewrite split_from_tokens, append_empty; [|done].
  rewrite split_from_space; [|done..].
  rewrite split_from_tokens, append_empty; [|done].
  rewrite split_from_space; [|done..].
  change (split_from EmptyString EmptyString) with (@nil string).
  by rewrite !py_int_py_str.
Qed.

Lemma lines_from_line (s : string) : ∀ cur rest,
  all_chars line_char s = true →
  lines_from cur (s ++ String "010" rest)%string =
    (cur ++ s ++ String "010" EmptyString)%string :: lines_from EmptyString rest.
Proof.
  induction s as [|c s IH]; intros cur rest.
  - intros _. by rewrite !append_empty.
  - cbn [all_chars]. rewrite andb_true_iff. intros [Hc Hs].
    rewrite !append_cons. cbn [lines_from].
    unfold line_char in Hc. apply negb_true_iff in Hc. rewrite Hc, IH; [|done].
    by rewrite append_assoc, append_cons, append_empty.
Qed.

Lemma format_address_line (row col : Z) :
  all_chars line_char (format_address row col) = true.
Proof.
  destruct (py_str_tokens row) as [Hrow _].
  destruct (py_str_tokens col) as [Hcol _].
  unfold format_address. rewrite all_chars_append. simpl.
  rewrite (all_chars_impl token_char line_char _ token_char_line_char Hrow).
  by rewrite (all_chars_impl token_char line_char _ token_char_line_char Hcol).
Qed.

Lemma file_lines_address_lines (ps : list Param) :
  file_lines (address_lines ps) =
    map (λ p, (format_address (mm3_row p) (mm3_col p)
               ++ String "010" EmptyString)%string) ps.
Proof.
  unfold file_lines. induction ps as [|p ps IH]; [done|]. simpl.
  rewrite lines_from_line; [|apply format_address_line].
  by rewrite append_empty, IH.
Qed.

Lemma read_lines_address_lines (ps : list Param) : ∀ temp_params,
  read_lines (map (λ p, (format_address (mm3_row p) (mm3_col p)
                         ++ String "010" EmptyString)%string) ps) temp_params =
    Ok (temp_params ++ map (λ p, (mm3_row p, mm3_col p, None)) ps).
Proof.
  induction ps as [|p ps IH]; intros temp_params; simpl.
  - by rewrite app_nil_r.
  - rewrite read_line_format_address, IH. by rewrite <- app_assoc.
Qed.

Lemma elem_of_inclusions (h : list Param) ds (params : list ref) (i : ref) :
  i ∈ flat_map (inclusions h ds) params ↔
  i ∈ params ∧ ∃ p, h !! i = Some p ∧ matching p ds ≠ [].
Proof.
  rewrite list_elem_of_In, in_flat_map. split.
  - intros (j & Hj & Hi). unfold inclusions in Hi.
    destruct (h !! j) as [p|] eqn:Hp; [|done].
    apply list_elem_of_In, elem_of_replicate in Hi as [-> Hlen].
    split; [by apply list_elem_of_In|]. exists p. split; [done|].
    by destruct (matching p ds).
  - intros [Hin (p & Hp & Hne)]. exists i. split; [by apply list_elem_of_In|].
    unfold inclusions. rewrite Hp. apply list_elem_of_In, elem_of_replicate.
    split; [done|]. by destruct (matching p ds).
Qed.

(** X2. What [--printparams] prints can be used as a parameter file: it
    reads back as one directive per printed parameter, with the printed row
    and column and no flag, and selecting with it selects exactly the
    parameters that have a printed address. *)
Theorem printed_addresses_reselect (env : Env) (params : list ref)
    (filename : string) (ps : list Param) (σ : State) :
  text_file env filename = Some (address_lines ps) →
  read_lines (file_lines (address_lines ps)) [] =
    Ok (map (λ p, (mm3_row p, mm3_col p, None)) ps) ∧
  ∃ σ' chosen,
    trim_params_by_file env params filename σ = (σ', Ok chosen) ∧
    (∀ i p, heap σ !! i = Some p →
       (i ∈ chosen ↔
        i ∈ params ∧ ∃ q, q ∈ ps ∧ mm3_row q = mm3_row p ∧ mm3_col q = mm3_col p)).
Proof.
  intros Hfile.
  assert (Hread : read_lines (file_lines (address_lines ps)) [] =
                  Ok (map (λ p, (mm3_row p, mm3_col p, None)) ps)).
  { by rewrite file_lines_address_lines, read_lines_address_lines. }
  split; [exact Hread|]. eexists _, _.
  split; [by eapply trim_params_by_file_run|].
  intros i p Hi. rewrite elem_of_inclusions. split.
  - intros [Hin (p' & Hp' & Hne)]. split; [done|].
    rewrite Hi in Hp'. injection Hp' as <-.
    destruct (matching p (map (λ p, (mm3_row p, mm3_col p, None)) ps))
      as [|d l] eqn:Hm; [done|].
    assert (Hd : In d (matching p (map (λ p, (mm3_row p, mm3_col p, None)) ps))).
    { rewrite Hm. by left. }
    apply filter_In in Hd as [Hd Hmatch]. apply in_map_iff in Hd as (q & <- & Hq).
    exists q. split; [by apply list_elem_of_In|].
    unfold matches in Hmatch. simpl in Hmatch.
    apply andb_true_iff in Hmatch as [?%Z.eqb_eq ?%Z.eqb_eq]. done.
  - intros [Hin (q & Hq & Hrow & Hcol)]. split; [done|]. exists p. split; [done|].
    assert (Hd : In (mm3_row q, mm3_col q, @None bool)
                    (matching p (map (λ p, (mm3_row p, mm3_col p, None)) ps))).
    { apply filter_In. split.
      - apply in_map_iff. exists q. split; [done | by apply list_elem_of_In].
      - unfold matches. simpl. rewrite Hrow, Hcol, !Z.eqb_refl. done. }
    intros Hnil. by rewrite Hnil in Hd.
Qed.

(** ** What a run keeps *)

Lemma retains_refl {B} (f : Param → B) (h : list Param) : retains f h h.
Proof. split; eauto. Qed.

Lemma retains_trans {B} (f : Param → B) (h1 h2 h3 : list Param) :
  retains f h1 h2 → retains f h2 h3 → retains f h1 h3.
Proof.
  intros [Hlen1 H1] [Hlen2 H2]. split; [congruence|].
  intros i p Hi. destruct (H1 i p Hi) as (p1 & Hp1 & Hf1).
  destruct (H2 i p1 Hp1) as (p2 & Hp2 & Hf2). exists p2. split; congruence.
Qed.

Lemma retains_alter {B} (f : Param → B) (g : Param → Param)
    (h : list Param) (i : ref) :
  (∀ p, f (g p) = f p) → retains f h (alter g i h).
Proof.
  intros Hg. split; [apply length_alter|]. intros j p Hj.
  destruct (decide (i = j)) as [->|Hne].
  - exists (g p). by rewrite list_lookup_alter_eq, Hj.
  - exists p. by rewrite list_lookup_alter_ne.
Qed.

Lemma retains_alter_all {B} (f : Param → B) (g : Param → Param)
    (params : list ref) : ∀ h : list Param,
  (∀ p, f (g p) = f p) → retains f h (foldl (λ h' j, alter g j h') h params).
Proof.
  induction params as [|j params IH]; intros h Hg; simpl.
  - apply retains_refl.
  - eapply retains_trans; [by apply retains_alter | by apply IH].
Qed.

Lemma extends_refl (σ : State) : extends σ σ.
Proof. exists []. by rewrite app_nil_r. Qed.

Lemma extends_trans (σ1 σ2 σ3 : State) :
  extends σ1 σ2 → extends σ2 σ3 → extends σ1 σ3.
Proof.
  intros [e1 H1] [e2 H2]. exists (e1 ++ e2). by rewrite H2, H1, app_assoc.
Qed.

Lemma sound_ret {A B} (f : Param → B) (a : A) : sound f (mret a : M A).
Proof.
  intros σ. split; [apply retains_refl|]. split; [apply extends_refl | done].
Qed.

Lemma sound_raise {A B} (f : Param → B) (e : PyError) :
  e ≠ TypeError → sound f (raise e : M A).
Proof.
  intros He σ. split; [apply retains_refl|].
  split; [apply extends_refl | by intros [=]].
Qed.

Lemma sound_bind {A A' B} (f : Param → B) (m : M A) (k : A → M A') :
  sound f m → (∀ a, sound f (k a)) → sound f (m ≫= k).
Proof.
  intros Hm Hk σ. destruct (Hm σ) as (Hr & He & Ht).
  unfold mbind, M_bind. destruct (m σ) as [σ1 [a|e]] eqn:Hrun; simpl in *.
  - destruct (Hk a σ1) as (Hr' & He' & Ht').
    split; [by eapply retains_trans|]. split; [by eapply extends_trans | done].
  - split; [done|]. split; [done|]. intros [= ->]. by apply Ht.
Qed.

Lemma sound_emit {B} (f : Param → B) (e : Event) : sound f (emit e).
Proof.
  intros σ. split; [apply retains_refl|]. split; [by exists [e] | done].
Qed.

Lemma sound_for_each {A B} (f : Param → B) (xs : list A) (body : A → M unit) :
  (∀ x, sound f (body x)) → sound f (for_each xs body).
Proof.
  intros Hbody. induction xs as [|x xs IH]; simpl.
  - apply sound_ret.
  - apply sound_bind; [apply Hbody | by intros _].
Qed.

(** A computation whose whole effect is known. *)
Lemma sound_run {A B} (f : Param → B) (m : M A) :
  (∀ σ, ∃ h events r,
     m σ = (mkState h (trace σ ++ events), r) ∧ retains f (heap σ) h ∧
     r ≠ Raise TypeError) →
  sound f m.
Proof.
  intros Hrun σ. destruct (Hrun σ) as (h & events & r & -> & Hr & Ht).
  simpl. split; [done|]. split; [by exists events | done].
Qed.

Lemma sound_trim_params_by_type {B} (f : Param → B) params ptypes :
  sound f (trim_params_by_type params ptypes).
Proof.
  apply sound_run. intros σ. exists (heap σ), [], (Ok (List.filter (has_ptype (heap σ) ptypes) params)).
  unfold trim_params_by_type. msimpl. rewrite app_nil_r, state_eta.
  split; [done|]. split; [apply retains_refl | done].
Qed.

Lemma flagged_keeps {B} (f : Param → B) ds (p : Param) :
  (∀ a p, f (set_allow_negative a p) = f p) → f (flagged ds p) = f p.
Proof. intros Hf. unfold flagged. by destruct (last (matching p ds)). Qed.

Lemma sound_trim_params_by_file {B} (f : Param → B) (env : Env) params filename :
  (∀ a p, f (set_allow_negative a p) = f p) →
  sound f (trim_params_by_file env params filename).
Proof.
  intros Hf. apply sound_run. intros σ.
  unfold trim_params_by_file, open_read. msimpl.
  destruct (text_file env filename) as [text|]; simpl.
  - destruct (read_lines (file_lines text) []) as [ds|e] eqn:Hread.
    + rewrite match_params_run. simpl. eexists _, _, _. split; [done|].
      split; [|done]. apply retains_alter_all. intros p. by apply flagged_keeps.
    + eexists _, _, _. split; [done|]. split; [apply retains_refl|].
      apply read_lines_malformed in Hread as [->| ->]; by intros [=].
  - eexists _, _, _. split; [done|]. split; [apply retains_refl | by intros [=]].
Qed.

Lemma averaged_keeps {B} (f : Param → B) (bond_dic angle_dic : gmap Z (list V))
    (p : Param) :
  (∀ v p, f (set_value v p) = f p) → f (averaged bond_dic angle_dic p) = f p.
Proof.
  intros Hf. unfold averaged, overridden.
  destruct (eligible p) eqn:He; [|by rewrite He].
  destruct ((np_mean <$> bond_dic) !! mm3_row p) as [b|];
    unfold eligible in *; simpl; rewrite He;
    destruct ((np_mean <$> angle_dic) !! mm3_row p) as [a|];
    rewrite ?Hf; done.
Qed.

Lemma sound_average_params {B} (f : Param → B)
    (bond_dic angle_dic : gmap Z (list V)) params :
  (∀ v p, f (set_value v p) = f p) →
  sound f (average_params bond_dic angle_dic params).
Proof.
  intros Hf. apply sound_run. intros σ. rewrite average_params_run.
  eexists _, [], _. rewrite app_nil_r. split; [done|]. split; [|done].
  apply retains_alter_all. intros p. by apply averaged_keeps.
Qed.

Lemma sound_check_usage {B} (f : Param → B)
    (bond_dic angle_dic : gmap Z (list V)) params :
  sound f (check_usage bond_dic angle_dic params).
Proof.
  apply sound_run. intros σ. rewrite check_usage_run.
  eexists _, _, _. split; [done|]. split; [apply retains_refl | done].
Qed.

Lemma sound_read_heap {A B} (f : Param → B) (k : list Param → M A) :
  (∀ h, sound f (k h)) → sound f (get_heap ≫= k).
Proof. intros Hk σ. unfold mbind, M_bind, get_heap. apply Hk. Qed.

Lemma sound_export_ff {B} (f : Param → B) path params :
  sound f (export_ff path params).
Proof. apply sound_read_heap. intros h. apply sound_emit. Qed.

Lemma sound_print_params {B} (f : Param → B) params :
  sound f (print_params params).
Proof.
  apply sound_for_each. intros i. apply sound_read_heap. intros h.
  destruct (h !! i); [apply sound_emit | apply sound_ret].
Qed.

Lemma sound_load_mmos {B} (f : Param → B) (env : Env) filenames :
  ∀ mmos, sound f (load_mmos env filenames mmos).
Proof.
  induction filenames as [|filename rest IH]; intros mmos; simpl.
  - apply sound_ret.
  - apply sound_bind; [apply sound_emit|]. intros _.
    destruct (mmo_file env filename); [apply IH | by apply sound_raise].
Qed.

(** Lines 217-248, when the assertion of line 196 has passed. *)
Lemma sound_use_mmos {B} (f : Param → B) (env : Env) opts params :
  (mmo_required opts = true → supplied (opt_mmo opts) = true) →
  given (opt_average opts) = false ∨ (∀ v p, f (set_value v p) = f p) →
  sound f (use_mmos env opts params).
Proof.
  intros Hassert Hvalue. unfold use_mmos, mmo_required in *.
  destruct (supplied (opt_mmo opts) || given (opt_average opts) || opt_check opts)
    eqn:Hcond; [|apply sound_ret].
  assert (Hmmo : supplied (opt_mmo opts) = true).
  { destruct (supplied (opt_mmo opts)); [done|]. simpl in Hcond. by apply Hassert. }
  destruct (opt_mmo opts) as [[|filename rest]|]; [done| |done].
  apply sound_bind; [apply sound_load_mmos|]. intros mmos.
  apply sound_bind.
  { destruct (opt_check opts); [apply sound_check_usage | apply sound_ret]. }
  intros _. destruct (given (opt_average opts)) eqn:Havg; [|apply sound_ret].
  destruct Hvalue as [?|Hvalue]; [done|].
  apply sound_bind; [by apply sound_average_params|]. intros _.
  apply sound_export_ff.
Qed.

Lemma sound_select_params {B} (f : Param → B) (env : Env) opts ff_params :
  given (opt_pfile opts) = false ∨ (∀ a p, f (set_allow_negative a p) = f p) →
  sound f (select_params env opts ff_params).
Proof.
  intros Hflag. unfold select_params. apply sound_bind.
  { destruct (requested_ptypes opts);
      [apply sound_ret | apply sound_trim_params_by_type]. }
  intros by_type. apply sound_bind; [|intros; apply sound_ret].
  destruct (given (opt_pfile opts)) eqn:Hp; [|apply sound_ret].
  destruct Hflag as [?|Hflag]; [done|]. by apply sound_trim_params_by_file.
Qed.

Lemma sound_main_selected {B} (f : Param → B) (env : Env) opts ff_params :
  (mmo_required opts = true → supplied (opt_mmo opts) = true) →
  given (opt_pfile opts) = false ∨ (∀ a p, f (set_allow_negative a p) = f p) →
  given (opt_average opts) = false ∨ (∀ v p, f (set_value v p) = f p) →
  sound f (main_selected env opts ff_params).
Proof.
  intros Hassert Hflag Hvalue. unfold main_selected.
  apply sound_bind; [by apply sound_select_params|]. intros params.
  apply sound_bind; [by apply sound_use_mmos|]. intros _.
  apply sound_bind; [|intros; apply sound_ret].
  destruct (opt_printparams opts); [apply sound_print_params | apply sound_ret].
Qed.

(** [main] up to the selection: the assertion, then the import. *)
Lemma main_imported (env : Env) opts (σ : State) ps :
  (mmo_required opts = true → supplied (opt_mmo opts) = true) →
  ff_file env (opt_ffpath opts) = Some ps →
  main env opts σ =
    main_selected env opts (seq (length (heap σ)) (length ps))
      (mkState (heap σ ++ ps) (trace σ ++ [EvImportFF (opt_ffpath opts)])).
Proof.
  intros Hassert Hff. unfold main, main_selected, import_ff, mmo_required in *.
  destruct (given (opt_average opts) || opt_check opts).
  - rewrite Hassert; [|done]. msimpl. by rewrite Hff.
  - msimpl. by rewrite Hff.
Qed.

(** ** Whole runs of [main] *)

Lemma main_asserts (env : Env) opts (σ : State) :
  mmo_required opts = true → supplied (opt_mmo opts) = false →
  main env opts σ = (σ, Raise AssertionError).
Proof.
  unfold mmo_required, main. intros Hreq Hmmo. by rewrite Hreq, Hmmo.
Qed.

Lemma main_unreadable (env : Env) opts (σ : State) :
  (mmo_required opts = true → supplied (opt_mmo opts) = true) →
  ff_file env (opt_ffpath opts) = None →
  main env opts σ =
    (mkState (heap σ) (trace σ ++ [EvImportFF (opt_ffpath opts)]), Raise IOError).
Proof.
  intros Hassert Hff. unfold main, import_ff, mmo_required in *.
  destruct (given (opt_average opts) || opt_check opts).
  - rewrite Hassert; [|done]. msimpl. by rewrite Hff.
  - msimpl. by rewrite Hff.
Qed.

Lemma assertion_cases opts :
  (mmo_required opts = true ∧ supplied (opt_mmo opts) = false) ∨
  (mmo_required opts = true → supplied (opt_mmo opts) = true).
Proof.
  destruct (mmo_required opts); destruct (supplied (opt_mmo opts)); eauto.
Qed.

(** X3. [main] never raises [TypeError]: the loop of line 219 over
    [opts.mmo] is reached only when [opts.mmo] is a list, the assertion of
    line 196 having stopped every run in which it is [None] and the loop
    would run. *)
Theorem main_never_type_error (env : Env) (opts : Opts) (σ : State) :
  outcome (main env opts) σ ≠ Raise TypeError.
Proof.
  unfold outcome. destruct (assertion_cases opts) as [[Hreq Hmmo]|Hassert].
  - by rewrite main_asserts.
  - destruct (ff_file env (opt_ffpath opts)) as [ps|] eqn:Hff.
    + rewrite (main_imported env opts σ ps Hassert Hff).
      apply (sound_main_selected (λ _, tt)); auto.
    + by rewrite main_unreadable.
Qed.

(** X4. Once the assertion has passed, the first thing [main] does is to
    import the force field, and whatever happens afterwards is added to the
    effects already there. *)
Theorem main_imports_first (env : Env) (opts : Opts) (σ : State) :
  (mmo_required opts = true → supplied (opt_mmo opts) = true) →
  ∃ events,
    trace (state_after (main env opts) σ) =
      trace σ ++ EvImportFF (opt_ffpath opts) :: events.
Proof.
  intros Hassert. unfold state_after.
  destruct (ff_file env (opt_ffpath opts)) as [ps|] eqn:Hff.
  - rewrite (main_imported env opts σ ps Hassert Hff).
    destruct (sound_main_selected (λ _, tt) env opts
                (seq (length (heap σ)) (length ps)) Hassert) with
      (σ := mkState (heap σ ++ ps) (trace σ ++ [EvImportFF (opt_ffpath opts)]))
      as (_ & [events Hev] & _); auto.
    exists events. rewrite Hev. simpl. by rewrite <- app_assoc.
  - rewrite main_unreadable; [|done..]. by exists [].
Qed.

(** X5. However a run of [main] ends once the force field is imported, the
    heap holds what it held and the imported parameters, and no other
    object; each is at its place with the row, column and ptype it had. *)
Theorem main_keeps_identity (env : Env) (opts : Opts) (σ : State)
    (ps : list Param) :
  (mmo_required opts = true → supplied (opt_mmo opts) = true) →
  ff_file env (opt_ffpath opts) = Some ps →
  length (heap (state_after (main env opts) σ)) = (length (heap σ) + length ps)%nat ∧
  (∀ i p, (heap σ ++ ps) !! i = Some p →
     ∃ p', heap (state_after (main env opts) σ) !! i = Some p' ∧
           mm3_row p' = mm3_row p ∧ mm3_col p' = mm3_col p ∧ ptype p' = ptype p).
Proof.
  intros Hassert Hff. unfold state_after.
  rewrite (main_imported env opts σ ps Hassert Hff).
  destruct (sound_main_selected identity env opts
              (seq (length (heap σ)) (length ps)) Hassert) with
    (σ := mkState (heap σ ++ ps) (trace σ ++ [EvImportFF (opt_ffpath opts)]))
    as ([Hlen Hkeep] & _ & _); auto.
  simpl in *. split; [by rewrite Hlen, length_app|].
  intros i p Hi. destruct (Hkeep i p Hi) as (p' & Hp' & Hid).
  exists p'. split; [done|]. unfold identity in Hid. by injection Hid.
Qed.

(** X6. Values are written by averaging only and flags by the selection
    file only: without [--average] every parameter ends with the value it
    was imported with, without [--pfile] with the flag it was imported
    with, and without both the heap is what it was plus the imported
    parameters, untouched. *)
Theorem main_writes_on_request (env : Env) (opts : Opts) (σ : State)
    (ps : list Param) :
  (mmo_required opts = true → supplied (opt_mmo opts) = true) →
  ff_file env (opt_ffpath opts) = Some ps →
  (given (opt_average opts) = false →
     ∀ i p, (heap σ ++ ps) !! i = Some p →
       ∃ p', heap (state_after (main env opts) σ) !! i = Some p' ∧
             value p' = value p) ∧
  (given (opt_pfile opts) = false →
     ∀ i p, (heap σ ++ ps) !! i = Some p →
       ∃ p', heap (state_after (main env opts) σ) !! i = Some p' ∧
             allow_negative p' = allow_negative p) ∧
  (given (opt_average opts) = false → given (opt_pfile opts) = false →
     heap (state_after (main env opts) σ) = heap σ ++ ps).
Proof.
  intros Hassert Hff. unfold state_after.
  rewrite (main_imported env opts σ ps Hassert Hff).
  split; [|split].
  - intros Havg.
    destruct (sound_main_selected value env opts
                (seq (length (heap σ)) (length ps)) Hassert) with
      (σ := mkState (heap σ ++ ps) (trace σ ++ [EvImportFF (opt_ffpath opts)]))
      as ([_ Hkeep] & _ & _); auto.
  - intros Hpfile.
    destruct (sound_main_selected allow_negative env opts
                (seq (length (heap σ)) (length ps)) Hassert) with
      (σ := mkState (heap σ ++ ps) (trace σ ++ [EvImportFF (opt_ffpath opts)]))
      as ([_ Hkeep] & _ & _); auto.
  - intros Havg Hpfile.
    destruct (sound_main_selected id env opts
                (seq (length (heap σ)) (length ps)) Hassert) with
      (σ := mkState (heap σ ++ ps) (trace σ ++ [EvImportFF (opt_ffpath opts)]))
      as ([Hlen Hkeep] & _ & _); auto.
    simpl in *. apply list_eq. intros i.
    destruct ((heap σ ++ ps) !! i) as [p|] eqn:Hi.
    + destruct (Hkeep i p Hi) as (p' & -> & Hid). by rewrite <- Hid.
    + apply lookup_ge_None in Hi. apply lookup_ge_None. by rewrite Hlen.
Qed.

(** ** What a successful run returns, prints and exports *)

Tactic Notation "msimpl" "in" hyp(H) :=
  unfold mbind, M_bind, mret, M_ret, get_heap, put_heap, update, emit, raise in H;
  simpl in H.

Lemma bind_inv_ok {A A'} (m : M A) (k : A → M A') (σ σ' : State) (b : A') :
  (m ≫= k) σ = (σ', Ok b) → ∃ σ1 a, m σ = (σ1, Ok a) ∧ k a σ1 = (σ', Ok b).
Proof.
  unfold mbind, M_bind. destruct (m σ) as [σ1 [a|e]]; [eauto | done].
Qed.

Lemma print_params_run params : ∀ σ : State,
  print_params params σ =
    (mkState (heap σ)
       (trace σ ++ map (λ p, EvPrint (mm3_row p) (mm3_col p)) (view (heap σ) params)),
     Ok tt).
Proof.
  unfold print_params, view, omap.
  induction params as [|i params IH]; intros σ; simpl.
  - msimpl. by rewrite app_nil_r, state_eta.
  - msimpl. destruct (heap σ !! i) as [p|] eqn:Hi; simpl.
    + msimpl. rewrite IH. simpl. by rewrite <- app_assoc.
    + apply IH.
Qed.

Lemma load_mmos_ok (env : Env) filenames : ∀ mmos (σ σ' : State) loaded,
  load_mmos env filenames mmos σ = (σ', Ok loaded) →
  heap σ' = heap σ ∧ trace σ' = trace σ ++ map EvMacroModel filenames.
Proof.
  induction filenames as [|filename rest IH]; intros mmos σ σ' loaded; simpl.
  - msimpl. intros [= <- <-]. by rewrite app_nil_r.
  - msimpl. destruct (mmo_file env filename) as [mmo|] eqn:Hfile; [|done].
    intros Hrun. apply IH in Hrun as (Hheap & Htrace). simpl in *.
    split; [done|]. by rewrite Htrace, <- app_assoc.
Qed.

(** What a selection by file that succeeds has read and done. *)
Lemma trim_params_by_file_ok (env : Env) params filename (σ σ' : State) chosen :
  trim_params_by_file env params filename σ = (σ', Ok chosen) →
  ∃ text ds,
    text_file env filename = Some text ∧
    read_lines (file_lines text) [] = Ok ds ∧
    chosen = flat_map (inclusions (heap σ) ds) params ∧
    σ' = mkState (foldl (λ h i, alter (flagged ds) i h) (heap σ) params)
                 (trace σ ++ [EvOpen filename]).
Proof.
  intros Hrun. destruct (text_file env filename) as [text|] eqn:Hfile.
  - destruct (read_lines (file_lines text) []) as [ds|e] eqn:Hread.
    + rewrite (trim_params_by_file_run env params filename text ds σ Hfile Hread)
        in Hrun.
      injection Hrun as <- <-. eauto 6.
    + unfold trim_params_by_file, open_read in Hrun. msimpl in Hrun.
      rewrite Hfile in Hrun. simpl in Hrun. by rewrite Hread in Hrun.
  - unfold trim_params_by_file, open_read in Hrun. msimpl in Hrun.
    by rewrite Hfile in Hrun.
Qed.

Lemma filter_no_ptype (h : list Param) (params : list ref) :
  List.filter (has_ptype h []) params = [].
Proof.
  induction params as [|i l IH]; simpl; [done|].
  unfold has_ptype at 1. by destruct (h !! i).
Qed.

(** Lines 210-211. *)
Lemma by_type_run opts (ff_params : list ref) (σ : State) :
  match requested_ptypes opts with
  | [] => mret []
  | ptypes => trim_params_by_type ff_params ptypes
  end σ =
    (σ, Ok (List.filter (has_ptype (heap σ) (requested_ptypes opts)) ff_params)).
Proof.
  destruct (requested_ptypes opts); [|done]. by rewrite filter_no_ptype.
Qed.

Lemma select_params_ok (env : Env) opts ff_params (σ σ' : State) params :
  select_params env opts ff_params σ = (σ', Ok params) →
  ∃ by_file,
    params = List.filter (has_ptype (heap σ) (requested_ptypes opts)) ff_params
             ++ by_file ∧
    (∀ i, i ∈ by_file → i ∈ ff_params) ∧
    length (heap σ') = length (heap σ).
Proof.
  unfold select_params. intros Hrun.
  apply bind_inv_ok in Hrun as (σ1 & by_type & Htype & Hrun).
  apply bind_inv_ok in Hrun as (σ2 & by_file & Hfile & Hrun).
  injection Hrun as <- <-. exists by_file.
  assert (Hσ1 : σ1 = σ ∧
    by_type = List.filter (has_ptype (heap σ) (requested_ptypes opts)) ff_params).
  { destruct (requested_ptypes opts) as [|t ts].
    - injection Htype as <- <-. by rewrite filter_no_ptype.
    - unfold trim_params_by_type in Htype. msimpl in Htype.
      by injection Htype as <- <-. }
  destruct Hσ1 as [-> ->]. split; [done|].
  destruct (given (opt_pfile opts)).
  - apply trim_params_by_file_ok in Hfile as (text & ds & _ & _ & -> & ->).
    split.
    + intros i Hi. by apply elem_of_inclusions in Hi as [Hi _].
    + simpl. apply (retains_alter_all identity). intros p.
      by apply flagged_keeps.
  - injection Hfile as <- <-. split; [by intros i ?%elem_of_nil | done].
Qed.

Lemma main_ok (env : Env) opts (σ σ' : State) params :
  main env opts σ = (σ', Ok params) →
  ∃ ps σ2 σ3,
    ff_file env (opt_ffpath opts) = Some ps ∧
    select_params env opts (seq (length (heap σ)) (length ps))
      (mkState (heap σ ++ ps) (trace σ ++ [EvImportFF (opt_ffpath opts)])) =
      (σ2, Ok params) ∧
    use_mmos env opts params σ2 = (σ3, Ok tt) ∧
    (if opt_printparams opts then print_params params else mret tt) σ3 =
      (σ', Ok tt).
Proof.
  intros Hrun. destruct (assertion_cases opts) as [[Hreq Hmmo]|Hassert].
  { by rewrite main_asserts in Hrun. }
  destruct (ff_file env (opt_ffpath opts)) as [ps|] eqn:Hff.
  2: { by rewrite main_unreadable in Hrun. }
  rewrite (main_imported env opts σ ps Hassert Hff) in Hrun.
  unfold main_selected in Hrun.
  apply bind_inv_ok in Hrun as (σ2 & params' & Hsel & Hrun).
  apply bind_inv_ok in Hrun as (σ3 & [] & Huse & Hrun).
  apply bind_inv_ok in Hrun as (σ4 & [] & Hprint & Hrun).
  injection Hrun as <- <-. eauto 8.
Qed.

(** X7. Every parameter [main] returns is one of the force field it
    imported, and still has the row, column and ptype it was imported
    with. *)
Theorem main_returns_imported (env : Env) (opts : Opts) (σ σ' : State)
    (params : list ref) (ps : list Param) :
  main env opts σ = (σ', Ok params) →
  ff_file env (opt_ffpath opts) = Some ps →
  ∀ i, i ∈ params →
    ∃ k p p', i = (length (heap σ) + k)%nat ∧ ps !! k = Some p ∧
              heap σ' !! i = Some p' ∧
              mm3_row p' = mm3_row p ∧ mm3_col p' = mm3_col p ∧ ptype p' = ptype p.
Proof.
  intros Hrun Hff i Hi.
  assert (Hassert : mmo_required opts = true → supplied (opt_mmo opts) = true).
  { destruct (assertion_cases opts) as [[Hreq Hmmo]|?]; [|done].
    by rewrite main_asserts in Hrun. }
  assert (Hrun' := Hrun).
  apply main_ok in Hrun' as (ps' & σ2 & σ3 & Hff' & Hsel & _).
  rewrite Hff in Hff'. injection Hff' as <-.
  apply select_params_ok in Hsel as (by_file & -> & Hsub & _).
  assert (Hseq : i ∈ seq (length (heap σ)) (length ps)).
  { apply elem_of_app in Hi as [Hi|Hi]; [|by apply Hsub].
    apply list_elem_of_In, filter_In in Hi as [Hi _]. by apply list_elem_of_In. }
  apply elem_of_seq in Hseq as [Hlo Hhi].
  destruct (lookup_lt_is_Some_2 ps (i - length (heap σ))) as [p Hp]; [lia|].
  assert (Hhp : (heap σ ++ ps) !! i = Some p).
  { rewrite lookup_app_r; [done | lia]. }
  rewrite (main_imported env opts σ ps Hassert Hff) in Hrun.
  destruct (sound_main_selected identity env opts
              (seq (length (heap σ)) (length ps)) Hassert) with
    (σ := mkState (heap σ ++ ps) (trace σ ++ [EvImportFF (opt_ffpath opts)]))
    as ([_ Hkeep] & _ & _); auto.
  rewrite Hrun in Hkeep. simpl in Hkeep.
  destruct (Hkeep i p Hhp) as (p' & Hp' & Hid).
  exists (i - length (heap σ))%nat, p, p'. unfold identity in Hid.
  injection Hid as ? ? ?. split; [lia|]. done.
Qed.

(** X8. When [main] succeeds with [--printparams], the last lines it
    prints are the addresses of the parameters it returns, one per
    parameter and in their order. *)
Theorem main_prints_result (env : Env) (opts : Opts) (σ σ' : State)
    (params : list ref) :
  main env opts σ = (σ', Ok params) →
  opt_printparams opts = true →
  ∃ before,
    trace σ' =
      before ++ map (λ p, EvPrint (mm3_row p) (mm3_col p)) (view (heap σ') params).
Proof.
  intros Hrun Hprint.
  apply main_ok in Hrun as (ps & σ2 & σ3 & _ & _ & _ & Hp).
  rewrite Hprint, print_params_run in Hp. injection Hp as <-. simpl. eauto.
Qed.

Lemma use_mmos_exports (env : Env) opts params (σ σ' : State) :
  use_mmos env opts params σ = (σ', Ok tt) →
  given (opt_average opts) = true →
  ∃ before,
    trace σ' =
      before ++ [EvExportFF (path_of (opt_average opts)) (view (heap σ') params)].
Proof.
  unfold use_mmos. intros Hrun Havg. rewrite Havg, orb_true_r in Hrun.
  simpl in Hrun.
  apply bind_inv_ok in Hrun as (σ1 & mmos & Hload & Hrun).
  apply bind_inv_ok in Hrun as (σ2 & [] & Hcheck & Hrun).
  apply bind_inv_ok in Hrun as (σ3 & [] & Haverage & Hrun).
  unfold export_ff in Hrun. msimpl in Hrun. injection Hrun as <-. simpl. eauto.
Qed.

(** X9. When [main] succeeds with [--average], the force field it exports
    is made of the parameters it returns, in their order and as they are
    when [main] ends; after the export it only prints. *)
Theorem main_exports_result (env : Env) (opts : Opts) (σ σ' : State)
    (params : list ref) :
  main env opts σ = (σ', Ok params) →
  given (opt_average opts) = true →
  ∃ before,
    trace σ' =
      before
      ++ EvExportFF (path_of (opt_average opts)) (view (heap σ') params)
      :: (if opt_printparams opts
          then map (λ p, EvPrint (mm3_row p) (mm3_col p)) (view (heap σ') params)
          else []).
Proof.
  intros Hrun Havg.
  apply main_ok in Hrun as (ps & σ2 & σ3 & _ & _ & Huse & Hp).
  destruct (use_mmos_exports env opts params σ2 σ3 Huse Havg) as [before Htr].
  exists before. destruct (opt_printparams opts).
  - rewrite print_params_run in Hp. injection Hp as <-. simpl.
    by rewrite Htr, <- app_assoc.
  - injection Hp as <-. by rewrite Htr.
Qed.

Lemma trim_params_by_file_fails (env : Env) params filename (σ : State) e :
  (text_file env filename = None ∧ e = IOError) ∨
  (∃ text, text_file env filename = Some text ∧
           read_lines (file_lines text) [] = Raise e) →
  trim_params_by_file env params filename σ =
    (mkState (heap σ) (trace σ ++ [EvOpen filename]), Raise e).
Proof.
  unfold trim_params_by_file, open_read. msimpl.
  intros [[-> ->]|(text & -> & Hread)]; [done|]. simpl. by rewrite Hread.
Qed.

(** X10. A selection file that cannot be opened, or that has a malformed
    line, ends [main] there: the force field has been imported and the
    file opened, no parameter has been modified, no structure file read,
    nothing printed or exported. *)
Theorem main_stops_at_selection (env : Env) (opts : Opts) (σ : State)
    (ps : list Param) (filename : string) (e : PyError) :
  (mmo_required opts = true → supplied (opt_mmo opts) = true) →
  ff_file env (opt_ffpath opts) = Some ps →
  opt_pfile opts = Some filename →
  given (Some filename) = true →
  (text_file env filename = None ∧ e = IOError) ∨
  (∃ text, text_file env filename = Some text ∧
           read_lines (file_lines text) [] = Raise e) →
  main env opts σ =
    (mkState (heap σ ++ ps)
             (trace σ ++ [EvImportFF (opt_ffpath opts); EvOpen filename]),
     Raise e).
Proof.
  intros Hassert Hff Hpfile Hgiven Hfail.
  rewrite (main_imported env opts σ ps Hassert Hff).
  unfold main_selected. erewrite bind_raise; [done|].
  unfold select_params. erewrite bind_ok; [|apply by_type_run].
  rewrite Hpfile, Hgiven. erewrite bind_raise; [done|]. simpl.
  rewrite (trim_params_by_file_fails env _ filename _ e Hfail). simpl.
  by rewrite <- app_assoc.
Qed.

(** ** Selection by file: duplicates, repetition, what is written *)

Lemma matches_address (p : Param) (d : Directive) :
  matches p d = true ↔ address d = (mm3_row p, mm3_col p).
Proof.
  unfold matches, address. destruct d as [[r c] a]. simpl.
  rewrite andb_true_iff, !Z.eqb_eq. split; [by intros [-> ->] | by intros [= -> ->]].
Qed.

(** Directives that name pairwise distinct addresses: at most one names a
    given parameter. *)
Lemma matching_at_most_one (p : Param) (ds : list Directive) :
  NoDup (map address ds) → (length (matching p ds) ≤ 1)%nat.
Proof.
  unfold matching. induction ds as [|d ds IH]; simpl; [lia|].
  intros [Hd Hds]%NoDup_cons. destruct (matches p d) eqn:Hm; [|by apply IH].
  simpl. destruct (List.filter (matches p) ds) as [|d' l] eqn:Hf; [simpl; lia|].
  exfalso. apply Hd.
  assert (Hin : In d' (List.filter (matches p) ds)) by (rewrite Hf; by left).
  apply filter_In in Hin as [Hin Hm'].
  apply matches_address in Hm, Hm'. rewrite Hm, <- Hm'.
  apply list_elem_of_In, in_map, Hin.
Qed.

Lemma inclusions_sublist (h : list Param) ds (params : list ref) :
  (∀ p : Param, length (matching p ds) ≤ 1)%nat →
  sublist (flat_map (inclusions h ds) params) params.
Proof.
  intros Hone. induction params as [|i params IH]; simpl; [constructor|].
  unfold inclusions at 1. destruct (h !! i) as [p|]; [|by constructor].
  specialize (Hone p). destruct (length (matching p ds)) as [|[|n]]; simpl.
  - by constructor.
  - by constructor.
  - lia.
Qed.

(** X11. When no two lines of the selection file name the same address,
    selection by file keeps the order of the parameters and repeats none:
    the selection is a subsequence of the list it is taken from, without
    duplicates if that list has none. *)
Theorem by_file_without_repeats (env : Env) (params : list ref)
    (filename text : string) (ds : list Directive) (σ : State) :
  text_file env filename = Some text →
  read_lines (file_lines text) [] = Ok ds →
  NoDup (map address ds) →
  ∃ σ' chosen,
    trim_params_by_file env params filename σ = (σ', Ok chosen) ∧
    sublist chosen params ∧
    (NoDup params → NoDup chosen).
Proof.
  intros Hfile Hread Hds. eexists _, _.
  split; [by eapply trim_params_by_file_run|].
  assert (Hsub : sublist (flat_map (inclusions (heap σ) ds) params) params).
  { apply inclusions_sublist. intros p. by apply matching_at_most_one. }
  split; [done|]. intros Hnd. by eapply sublist_NoDup.
Qed.

(** X12. The assumption the module states: when the selection file names
    no address twice and none of a parameter that the requested ptypes
    select, the combined selection holds no parameter twice. *)
Theorem selection_without_overlap (env : Env) (opts : Opts)
    (ff_params : list ref) (filename text : string) (ds : list Directive)
    (σ : State) :
  opt_pfile opts = Some filename →
  given (Some filename) = true →
  text_file env filename = Some text →
  read_lines (file_lines text) [] = Ok ds →
  NoDup ff_params →
  NoDup (map address ds) →
  (∀ i p, i ∈ ff_params → heap σ !! i = Some p →
     ptype p ∈ requested_ptypes opts → matching p ds = []) →
  ∃ σ' params,
    select_params env opts ff_params σ = (σ', Ok params) ∧ NoDup params.
Proof.
  intros Hpfile Hgiven Hfile Hread Hnd Hds Hover.
  unfold select_params. eexists _, _. split.
  - erewrite bind_ok; [|apply by_type_run]. rewrite Hpfile, Hgiven.
    erewrite bind_ok; [done|]. by eapply trim_params_by_file_run.
  - apply NoDup_app. split; [|split].
    + apply NoDup_ListNoDup, List.NoDup_filter, NoDup_ListNoDup, Hnd.
    + intros i Htype Hfile'.
      apply list_elem_of_In, filter_In in Htype as [Hin Htype].
      apply list_elem_of_In in Hin.
      apply elem_of_inclusions in Hfile' as [_ (p & Hp & Hne)].
      unfold has_ptype in Htype. rewrite Hp in Htype.
      apply bool_decide_eq_true in Htype. by apply Hne, (Hover i p).
    + eapply sublist_NoDup; [exact Hnd|].
      apply inclusions_sublist. intros p. by apply matching_at_most_one.
Qed.

(** X13. Selection by file writes flags and nothing else: however it ends,
    the heap holds the same objects, each with the row, column, ptype and
    value it had. *)
Theorem by_file_writes_flags_only (env : Env) (params : list ref)
    (filename : string) (σ : State) :
  length (heap (state_after (trim_params_by_file env params filename) σ)) =
    length (heap σ) ∧
  ∀ i p, heap σ !! i = Some p →
    ∃ p', heap (state_after (trim_params_by_file env params filename) σ) !! i =
            Some p' ∧
          mm3_row p' = mm3_row p ∧ mm3_col p' = mm3_col p ∧
          ptype p' = ptype p ∧ value p' = value p.
Proof.
  destruct (sound_trim_params_by_file (λ p, (identity p, value p))
              env params filename) with (σ := σ) as ([Hlen Hkeep] & _ & _); [done|].
  unfold state_after. split; [done|]. intros i p Hi.
  destruct (Hkeep i p Hi) as (p' & Hp' & Hid). exists p'. split; [done|].
  unfold identity in Hid. by injection Hid.
Qed.

Lemma inclusions_alter_all ds' (params' : list ref) ds (i : ref) :
  ∀ h : list Param,
  inclusions (foldl (λ h' j, alter (flagged ds') j h') h params') ds i =
  inclusions h ds i.
Proof.
  induction params' as [|j l IH]; intros h; simpl; [done|].
  by rewrite IH, inclusions_alter.
Qed.

(** X14. Selecting a second time with the same file changes nothing: the
    selection is the same and no flag changes (the file is opened once
    more). *)
Theorem by_file_twice (env : Env) (params : list ref)
    (filename : string) (σ σ' : State) (chosen : list ref) :
  trim_params_by_file env params filename σ = (σ', Ok chosen) →
  trim_params_by_file env params filename σ' =
    (mkState (heap σ') (trace σ' ++ [EvOpen filename]), Ok chosen).
Proof.
  intros Hrun.
  apply trim_params_by_file_ok in Hrun as (text & ds & Hfile & Hread & -> & ->).
  rewrite (trim_params_by_file_run env params filename text ds _ Hfile Hread).
  simpl. f_equal; [f_equal|f_equal].
  - apply list_eq. intros i. rewrite !lookup_after_matching.
    case_bool_decide; [|done].
    destruct (heap σ !! i); simpl; [by rewrite flagged_idem | done].
  - apply flat_map_ext. intros i. apply inclusions_alter_all.
Qed.

(** ** Selection by type: repetition, parts, [--all] *)

Lemma filter_filter_same {A} (f : A → bool) (l : list A) :
  List.filter f (List.filter f l) = List.filter f l.
Proof.
  induction l as [|x l IH]; simpl; [done|].
  destruct (f x) eqn:Hx; simpl; [by rewrite Hx, IH | done].
Qed.

(** X15. Selection by type can be repeated and taken by parts: selecting
    from a selection with the same ptypes gives it back, and the selection
    from two lists put together is the two selections put together. *)
Theorem by_type_composes (σ : State) (params params' : list ref)
    (ptypes : list string) :
  ∃ chosen chosen',
    trim_params_by_type params ptypes σ = (σ, Ok chosen) ∧
    trim_params_by_type params' ptypes σ = (σ, Ok chosen') ∧
    trim_params_by_type chosen ptypes σ = (σ, Ok chosen) ∧
    trim_params_by_type (params ++ params') ptypes σ = (σ, Ok (chosen ++ chosen')).
Proof.
  eexists _, _. unfold trim_params_by_type. msimpl.
  split; [done|]. split; [done|]. split.
  - by rewrite filter_filter_same.
  - by rewrite List.filter_app.
Qed.

(** X16. [--all] alone selects the parameters whose ptype is one of the
    eleven of [ALL_PARM_TYPES], in their order, and no other: every
    parameter when all have such a ptype, and never one whose ptype is
    not among them. *)
Theorem all_selects_known_ptypes (env : Env) (opts : Opts)
    (ff_params : list ref) (σ : State) :
  opt_all opts = true →
  opt_ptypes opts = [] →
  given (opt_pfile opts) = false →
  ∃ params,
    select_params env opts ff_params σ = (σ, Ok params) ∧
    view (heap σ) params =
      List.filter (λ p, bool_decide (ptype p ∈ ALL_PARM_TYPES))
                  (view (heap σ) ff_params) ∧
    ((∀ i, i ∈ ff_params →
        ∃ p, heap σ !! i = Some p ∧ ptype p ∈ ALL_PARM_TYPES) →
     params = ff_params) ∧
    (∀ i p, heap σ !! i = Some p → ptype p ∉ ALL_PARM_TYPES → i ∉ params).
Proof.
  intros Hall Hptypes Hpfile.
  exists (List.filter (has_ptype (heap σ) ALL_PARM_TYPES) ff_params).
  assert (Hreq : requested_ptypes opts = ALL_PARM_TYPES).
  { unfold requested_ptypes. by rewrite Hall, Hptypes. }
  split; [|split; [|split]].
  - unfold select_params. erewrite bind_ok; [|apply by_type_run].
    rewrite Hpfile, Hreq. msimpl. by rewrite app_nil_r.
  - apply view_filter_ptype.
  - intros Hknown. induction ff_params as [|i l IH]; [done|].
    cbn [List.filter]. destruct (Hknown i) as (p & Hp & Hin); [by left|].
    unfold has_ptype at 1. rewrite Hp, bool_decide_eq_true_2; [|done].
    f_equal. apply IH. intros j Hj. apply Hknown. by right.
  - intros i p Hp Hout Hin. apply list_elem_of_In, filter_In in Hin as [_ Hin].
    unfold has_ptype in Hin. rewrite Hp in Hin.
    by apply bool_decide_eq_true in Hin.
Qed.

(** ** Aggregation over several lists of files *)

Lemma lookup_bonds (mmos : list (Mmo.MacroModel V)) row :
  (gather_values mmos).1 !! row = entry_of row (all_bonds mmos).
Proof.
  unfold gather_values. rewrite fold_gather_mmo. simpl.
  by rewrite lookup_fold_add_value, lookup_empty.
Qed.

Lemma lookup_angles (mmos : list (Mmo.MacroModel V)) row :
  (gather_values mmos).2 !! row = entry_of row (all_angles mmos).
Proof.
  unfold gather_values. rewrite fold_gather_mmo. simpl.
  by rewrite lookup_fold_add_value, lookup_empty.
Qed.

Lemma entry_of_app row (ds1 ds2 : list (Mmo.Datum V)) :
  entry_of row (ds1 ++ ds2) =
    union_with (λ values1 values2, Some (values1 ++ values2))
               (entry_of row ds1) (entry_of row ds2).
Proof.
  unfold entry_of. rewrite values_of_app.
  destruct (values_of row ds1) as [|v1 l1]; destruct (values_of row ds2) as [|v2 l2];
    simpl; try done. by rewrite app_nil_r.
Qed.

(** X17. Gathering from two lists of files, one after the other, gives for
    each row the values of the first list followed by those of the second:
    the tables of the whole are the tables of the parts, merged row by
    row. *)
Theorem gather_values_app (mmos1 mmos2 : list (Mmo.MacroModel V)) :
  (gather_values (mmos1 ++ mmos2)).1 =
    union_with (λ values1 values2, Some (values1 ++ values2))
               (gather_values mmos1).1 (gather_values mmos2).1 ∧
  (gather_values (mmos1 ++ mmos2)).2 =
    union_with (λ values1 values2, Some (values1 ++ values2))
               (gather_values mmos1).2 (gather_values mmos2).2.
Proof.
  split; apply map_eq; intros row; rewrite lookup_union_with.
  - rewrite !lookup_bonds. unfold all_bonds. rewrite flat_map_app.
    apply entry_of_app.
  - rewrite !lookup_angles. unfold all_angles. rewrite flat_map_app.
    apply entry_of_app.
Qed.

(** ** Averaging: repetition and reach *)

(** X18. Averaging a second time with the same tables changes nothing. *)
Theorem averaging_twice (bond_dic angle_dic : gmap Z (list V))
    (params : list ref) (σ : State) :
  average_params bond_dic angle_dic params
    (state_after (average_params bond_dic angle_dic params) σ) =
  (state_after (average_params bond_dic angle_dic params) σ, Ok tt).
Proof.
  unfold state_after. rewrite !average_params_run. simpl. f_equal. f_equal.
  apply list_eq. intros i. rewrite !lookup_after_averaging.
  case_bool_decide; [|done].
  destruct (heap σ !! i); simpl; [by rewrite averaged_idem | done].
Qed.

(** X19. Averaging reaches the selected parameters only and writes values
    only: a parameter that is not selected is left as it is, the heap
    holds the same objects, each with its row, column, ptype and flag, and
    nothing is printed, read or written. *)
Theorem averaging_reach (bond_dic angle_dic : gmap Z (list V))
    (params : list ref) (σ : State) :
  (∀ i, i ∉ params →
     heap (state_after (average_params bond_dic angle_dic params) σ) !! i =
     heap σ !! i) ∧
  length (heap (state_after (average_params bond_dic angle_dic params) σ)) =
    length (heap σ) ∧
  (∀ i p, heap σ !! i = Some p →
     ∃ p', heap (state_after (average_params bond_dic angle_dic params) σ) !! i =
             Some p' ∧
           mm3_row p' = mm3_row p ∧ mm3_col p' = mm3_col p ∧
           ptype p' = ptype p ∧ allow_negative p' = allow_negative p) ∧
  trace (state_after (average_params bond_dic angle_dic params) σ) = trace σ.
Proof.
  unfold state_after. rewrite average_params_run. simpl.
  destruct (retains_alter_all (λ p, (identity p, allow_negative p))
              (averaged bond_dic angle_dic) params (heap σ)) as [Hlen Hkeep].
  { intros p. by apply (averaged_keeps (λ p, (identity p, allow_negative p))). }
  split; [|split; [done|split; [|done]]].
  - intros i Hi. rewrite lookup_after_averaging. by rewrite bool_decide_eq_false_2.
  - intros i p Hp. destruct (Hkeep i p Hp) as (p' & Hp' & Hid).
    exists p'. split; [done|]. unfold identity in Hid. by injection Hid.
Qed.

(** ** Lines that give no directive *)

Lemma before_hash_text (s : string) :
  all_chars text_char s = true → before_hash s = s.
Proof.
  induction s as [|c s IH]; simpl; [done|]. rewrite andb_true_iff.
  intros [Hc Hs]. unfold text_char in Hc. apply negb_true_iff in Hc.
  by rewrite Hc, IH.
Qed.

Lemma before_hash_comment (s comment : string) :
  all_chars text_char s = true →
  before_hash (s ++ String "#" comment)%string = s.
Proof.
  induction s as [|c s IH]; [done|]. cbn [all_chars]. rewrite andb_true_iff.
  intros [Hc Hs]. rewrite append_cons. cbn [before_hash].
  unfold text_char in Hc. apply negb_true_iff in Hc. by rewrite Hc, IH.
Qed.

Lemma split_from_nil (s : string) : ∀ cur,
  split_from cur s = [] ↔ cur = EmptyString ∧ all_chars is_space s = true.
Proof.
  induction s as [|c s IH]; intros cur; simpl.
  - destruct cur; split; try done. by intros [? _].
  - destruct (is_space c); simpl.
    + destruct cur; [by rewrite IH|]. split; [done | by intros [? _]].
    + rewrite IH. split; [|by intros [_ ?]]. intros [Hcur _]. by destruct cur.
Qed.

(** X22. A line gives no directive, and no error, exactly when all that
    stands before its first [#] is whitespace; and what follows a [#] never
    matters: a line read with a comment added reads as without it. *)
Theorem lines_without_directive :
  (∀ line, read_line line = Ok None ↔
           all_chars is_space (before_hash line) = true) ∧
  (∀ line comment, all_chars text_char line = true →
     read_line (line ++ String "#" comment)%string = read_line line).
Proof.
  split.
  - intros line. unfold read_line, py_split.
    assert (Hs : split_from EmptyString (before_hash line) = [] ↔
                 all_chars is_space (before_hash line) = true).
    { rewrite split_from_nil. split; [by intros [_ ?] | done]. }
    rewrite <- Hs. clear Hs.
    destruct (split_from EmptyString (before_hash line)) as [|c0 [|c1 args]].
    + split; [by intros _ | done].
    + destruct (py_int c0); split; try done; by intros [? ?].
    + destruct (py_int c0); [destruct (py_int c1)|]; split; try done;
        by intros [? ?].
  - intros line comment Hline. unfold read_line.
    by rewrite before_hash_comment, before_hash_text.
Qed.

(** ** Selection files put together *)

Lemma lines_from_app (body : string) : ∀ cur rest,
  lines_from cur ((body ++ String "010" EmptyString) ++ rest)%string =
    lines_from cur (body ++ String "010" EmptyString)%string
    ++ lines_from EmptyString rest.
Proof.
  induction body as [|c body IH]; intros cur rest.
  - rewrite !append_empty, append_cons, append_empty. done.
  - rewrite !append_cons. cbn [lines_from].
    destruct (Ascii.eqb c "010"); [by rewrite IH | apply IH].
Qed.

Lemma read_lines_app (lines1 lines2 : list string) : ∀ temp_params,
  read_lines (lines1 ++ lines2) temp_params =
    match read_lines lines1 temp_params with
    | Ok temp_params' => read_lines lines2 temp_params'
    | Raise e => Raise e
    end.
Proof.
  induction lines1 as [|line lines1 IH]; intros temp_params; simpl; [done|].
  destruct (read_line line) as [[d|]|e]; [apply IH | apply IH | done].
Qed.

Lemma read_lines_from (lines : list string) : ∀ temp_params,
  read_lines lines temp_params =
    match read_lines lines [] with
    | Ok ds => Ok (temp_params ++ ds)
    | Raise e => Raise e
    end.
Proof.
  induction lines as [|line lines IH]; intros temp_params; simpl.
  - by rewrite app_nil_r.
  - destruct (read_line line) as [[d|]|e]; [|apply IH|done].
    rewrite (IH (temp_params ++ [d])), (IH [d]).
    destruct (read_lines lines []); [|done]. by rewrite <- app_assoc.
Qed.

(** X20. Two selection files put together, the first ending its last line:
    the directives read are those of the first followed by those of the
    second, and reading fails where reading one of them fails, with the
    error of the first that does. *)
Theorem selection_files_concatenate (body text2 : string) :
  read_lines (file_lines ((body ++ String "010" EmptyString) ++ text2)%string) [] =
    match read_lines (file_lines (body ++ String "010" EmptyString)%string) [] with
    | Ok ds1 =>
        match read_lines (file_lines text2) [] with
        | Ok ds2 => Ok (ds1 ++ ds2)
        | Raise e => Raise e
        end
    | Raise e => Raise e
    end.
Proof.
  unfold file_lines. rewrite lines_from_app, read_lines_app.
  destruct (read_lines (lines_from EmptyString (body ++ String "010" EmptyString)%string) [])
    as [ds1|e]; [|done].
  apply read_lines_from.
Qed.

End Properties.

(** ** Averaging in exact arithmetic *)





(** ** The theorems at concrete inputs *)

Lemma malformed_line_aborts_witness :
  outcome (trim_params_by_file Scenario.env Scenario.all_refs "short.txt")
          Scenario.start = Raise IndexError ∧
  heap (state_after (trim_params_by_file Scenario.env Scenario.all_refs "short.txt")
                    Scenario.start) = Scenario.records.
Proof.
  pose proof (malformed_line_aborts Scenario.env Scenario.all_refs "short.txt"
                Scenario.short_text Scenario.start eq_refl) as [_ H].
  assert (Hout : outcome (trim_params_by_file Scenario.env Scenario.all_refs "short.txt")
                   Scenario.start = Raise IndexError) by (vm_compute; reflexivity).
  split; [exact Hout|]. exact (proj2 (H IndexError Hout)).
Defined.

Lemma trim_params_by_file_includes_witness :
  ∃ σ' chosen,
    trim_params_by_file Scenario.env Scenario.all_refs "sel.txt" Scenario.start =
      (σ', Ok chosen) ∧
    chosen = [0; 1; 2]%nat.
Proof.
  destruct (trim_params_by_file_includes Scenario.env Scenario.all_refs "sel.txt"
              Scenario.selection_text
              [(100, 1, None); (100, 2, Some true); (200, 1, None)]
              Scenario.start eq_refl eq_refl)
    as (σ' & chosen & Hrun & Hchosen & _).
  exists σ', chosen. split; [exact Hrun|]. rewrite Hchosen. reflexivity.
Defined.

Lemma last_directive_wins_witness :
  ∃ σ' chosen,
    trim_params_by_file Scenario.env Scenario.all_refs "twice.txt" Scenario.start =
      (σ', Ok chosen) ∧
    heap σ' !! 1%nat = Some (mkParam 100 2 "bf" (5 # 1) None) ∧
    chosen = [1; 1]%nat ∧
    view (heap σ') chosen =
      [mkParam 100 2 "bf" (5 # 1) None; mkParam 100 2 "bf" (5 # 1) None].
Proof.
  destruct (last_directive_wins Scenario.env Scenario.all_refs "twice.txt"
              Scenario.twice_text [(100, 2, Some true); (100, 2, None)]
              Scenario.start 1%nat (mkParam 100 2 "bf" (5 # 1) None) (100, 2, None)
              eq_refl eq_refl)
    as (σ' & chosen & Hrun & Hflag & _ & _).
  - by vm_compute; right; left.
  - reflexivity.
  - reflexivity.
  - exists σ', chosen. split; [exact Hrun|]. split; [exact Hflag|].
    assert (Hrun' := Hrun). vm_compute in Hrun'.
    injection Hrun' as Hσ Hchosen. subst σ' chosen. split; reflexivity.
Defined.


Lemma angle_mean_wins_witness :
  ∃ q, heap (state_after (average_params Scenario.bond_dic Scenario.angle_dic [0%nat])
                         (mkState [Scenario.bond_1858] [])) !! 0%nat = Some q ∧
       (value q == 111 # 1)%Q ∧ ¬ (value q == 1357 # 1000)%Q.
Proof.
  destruct (angle_mean_wins Scenario.bond_dic Scenario.angle_dic [0%nat]
              (mkState [Scenario.bond_1858] []) 0%nat Scenario.bond_1858
              [1360 # 1000; 1354 # 1000] [110 # 1; 112 # 1]) as [_ Hfinal].
  - by left.
  - reflexivity.
  - by left.
  - reflexivity.
  - reflexivity.
  - eexists. split; [exact Hfinal|]. split; [reflexivity | discriminate].
Defined.

Lemma averaging_leaves_others_witness :
  heap (state_after (average_params Scenario.bond_dic Scenario.angle_dic [1%nat; 2%nat])
                    Scenario.start) !! 1%nat =
    Some (mkParam 100 2 "bf" (5 # 1) None) ∧
  heap (state_after (average_params Scenario.bond_dic Scenario.angle_dic [1%nat; 2%nat])
                    Scenario.start) !! 2%nat =
    Some (mkParam 200 1 "ae" (109 # 1) None).
Proof.
  split.
  - apply (averaging_leaves_others Scenario.bond_dic Scenario.angle_dic
             [1%nat; 2%nat] Scenario.start 1%nat).
    + by left.
    + reflexivity.
    + left. vm_compute. intros H. inversion H as [|? ? ? H']; subst.
      inversion H' as [|? ? ? H'']; subst. inversion H''.
  - apply (averaging_leaves_others Scenario.bond_dic Scenario.angle_dic
             [1%nat; 2%nat] Scenario.start 2%nat).
    + by right; left.
    + reflexivity.
    + right. split; reflexivity.
Defined.

Lemma missing_mmo_raises_first_witness :
  main Scenario.env Scenario.average_without_mmo (mkState [] []) =
    (mkState [] [], Raise AssertionError).
Proof.
  apply (missing_mmo_raises_first Scenario.env Scenario.average_without_mmo
           (mkState [] [])); reflexivity.
Defined.

(** ** The further properties at concrete inputs *)

Ltac by_decide :=
  match goal with |- ?P => exact (bool_decide_unpack P I) end.

Lemma read_line_flag_witness :
  read_line "1891 1 neg     # V1 of torsion on line 1891" =
    Ok (Some (1891, 1, Some true)) ∧
  ∃ arg, arg ∈ drop 2 (py_split (before_hash
                 "1891 1 neg     # V1 of torsion on line 1891")) ∧
         occurs_in "neg" arg.
Proof.
  split; [reflexivity|].
  apply (read_line_flag "1891 1 neg     # V1 of torsion on line 1891"
           1891 1 (Some true)); reflexivity.
Defined.

Lemma printed_addresses_reselect_witness :
  ∃ σ' chosen,
    trim_params_by_file Sample.env Scenario.all_refs "printed.txt" Scenario.start =
      (σ', Ok chosen) ∧
    (0%nat ∈ chosen ∧ 1%nat ∉ chosen).
Proof.
  destruct (printed_addresses_reselect Sample.env Scenario.all_refs "printed.txt"
              Sample.printed Scenario.start eq_refl)
    as (_ & σ' & chosen & Hrun & Hsel).
  exists σ', chosen. split; [exact Hrun|]. split.
  - apply (Hsel 0%nat (mkParam 100 1 "be" (1300 # 1000) None) eq_refl).
    split; [by left|]. eexists. split; [by left | done].
  - intros Hin.
    apply (Hsel 1%nat (mkParam 100 2 "bf" (5 # 1) None) eq_refl) in Hin
      as [_ (q & Hq & Hrow & Hcol)].
    apply elem_of_cons in Hq as [->|Hq]; [done|].
    apply elem_of_cons in Hq as [->|Hq]; [done|]. by apply elem_of_nil in Hq.
Defined.

Lemma main_imports_first_witness :
  ∃ events,
    trace (state_after (main Scenario.env Scenario.everything) (mkState [] [])) =
      [] ++ EvImportFF "mm3.fld" :: events.
Proof.
  apply (main_imports_first Scenario.env Scenario.everything (mkState [] [])).
  reflexivity.
Defined.

Lemma main_keeps_identity_witness :
  length (heap (state_after (main Scenario.env Scenario.everything)
                            (mkState [] []))) = 4%nat.
Proof.
  apply (main_keeps_identity Scenario.env Scenario.everything (mkState [] [])
           Scenario.records); reflexivity.
Defined.

Lemma main_writes_on_request_witness :
  heap (state_after (main Sample.env Sample.all) (mkState [] [])) = Scenario.records.
Proof.
  destruct (main_writes_on_request Sample.env Sample.all (mkState [] [])
              Scenario.records) as (_ & _ & Hsame).
  - discriminate.
  - reflexivity.
  - apply Hsame; reflexivity.
Defined.

Lemma main_returns_imported_witness :
  ∃ k p p',
    2%nat = (0 + k)%nat ∧ Scenario.records !! k = Some p ∧
    heap (main Scenario.env Scenario.everything (mkState [] [])).1 !! 2%nat =
      Some p' ∧
    mm3_row p' = mm3_row p ∧ mm3_col p' = mm3_col p ∧ ptype p' = ptype p.
Proof.
  apply (main_returns_imported Scenario.env Scenario.everything (mkState [] [])
           (main Scenario.env Scenario.everything (mkState [] [])).1
           [2; 3; 0; 1; 2]%nat Scenario.records).
  - by vm_compute.
  - reflexivity.
  - by left.
Defined.

Lemma main_prints_result_witness :
  ∃ before,
    trace (main Scenario.env Scenario.everything (mkState [] [])).1 =
      before ++ map (λ p, EvPrint (mm3_row p) (mm3_col p))
                    (view (heap (main Scenario.env Scenario.everything
                                      (mkState [] [])).1)
                          [2; 3; 0; 1; 2]%nat).
Proof.
  apply (main_prints_result Scenario.env Scenario.everything (mkState [] [])).
  - by vm_compute.
  - reflexivity.
Defined.

Lemma main_exports_result_witness :
  ∃ before,
    trace (main Scenario.env Scenario.everything (mkState [] [])).1 =
      before
      ++ EvExportFF "out.fld"
           (view (heap (main Scenario.env Scenario.everything (mkState [] [])).1)
                 [2; 3; 0; 1; 2]%nat)
      :: map (λ p, EvPrint (mm3_row p) (mm3_col p))
             (view (heap (main Scenario.env Scenario.everything (mkState [] [])).1)
                   [2; 3; 0; 1; 2]%nat).
Proof.
  apply (main_exports_result Scenario.env Scenario.everything (mkState [] [])
           (main Scenario.env Scenario.everything (mkState [] [])).1
           [2; 3; 0; 1; 2]%nat).
  - by vm_compute.
  - reflexivity.
Defined.

Lemma main_stops_at_selection_witness :
  main Sample.env Sample.with_short_file (mkState [] []) =
    (mkState Scenario.records [EvImportFF "mm3.fld"; EvOpen "short.txt"],
     Raise IndexError).
Proof.
  apply (main_stops_at_selection Sample.env Sample.with_short_file (mkState [] [])
           Scenario.records "short.txt" IndexError).
  - reflexivity.
  - reflexivity.
  - reflexivity.
  - reflexivity.
  - right. exists Scenario.short_text. split; reflexivity.
Defined.

Lemma by_file_without_repeats_witness :
  ∃ σ' chosen,
    trim_params_by_file Scenario.env Scenario.all_refs "sel.txt" Scenario.start =
      (σ', Ok chosen) ∧
    sublist chosen Scenario.all_refs ∧
    (NoDup Scenario.all_refs → NoDup chosen).
Proof.
  apply (by_file_without_repeats Scenario.env Scenario.all_refs "sel.txt"
           Scenario.selection_text
           [(100, 1, None); (100, 2, Some true); (200, 1, None)]).
  - reflexivity.
  - reflexivity.
  - by_decide.
Defined.

Lemma selection_without_overlap_witness :
  ∃ σ' params,
    select_params Sample.env Sample.angles_and_bonds Scenario.all_refs
                  Scenario.start = (σ', Ok params) ∧
    NoDup params.
Proof.
  apply (selection_without_overlap Sample.env Sample.angles_and_bonds
           Scenario.all_refs "bonds.txt" Sample.bonds_text
           [(100, 1, None); (100, 2, Some true)]).
  - reflexivity.
  - reflexivity.
  - reflexivity.
  - reflexivity.
  - by_decide.
  - by_decide.
  - intros i p Hi Hp Hae.
    change (requested_ptypes Sample.angles_and_bonds) with ["ae"] in Hae.
    apply list_elem_of_singleton in Hae.
    repeat (apply elem_of_cons in Hi as [->|Hi]); [.. | by apply elem_of_nil in Hi];
      injection Hp as <-; first [reflexivity | discriminate Hae].
Defined.

Lemma by_file_twice_witness :
  trim_params_by_file Scenario.env Scenario.all_refs "sel.txt"
    (trim_params_by_file Scenario.env Scenario.all_refs "sel.txt" Scenario.start).1 =
    (mkState
       (heap (trim_params_by_file Scenario.env Scenario.all_refs "sel.txt"
                Scenario.start).1)
       (trace (trim_params_by_file Scenario.env Scenario.all_refs "sel.txt"
                 Scenario.start).1 ++ [EvOpen "sel.txt"]),
     Ok [0; 1; 2]%nat).
Proof.
  apply (by_file_twice Scenario.env Scenario.all_refs "sel.txt" Scenario.start).
  by vm_compute.
Defined.

Lemma all_selects_known_ptypes_witness :
  ∃ params,
    select_params Sample.env Sample.all Scenario.all_refs Scenario.start =
      (Scenario.start, Ok params) ∧
    view (heap Scenario.start) params =
      List.filter (λ p, bool_decide (ptype p ∈ ALL_PARM_TYPES))
                  (view (heap Scenario.start) Scenario.all_refs).
Proof.
  destruct (all_selects_known_ptypes Sample.env Sample.all Scenario.all_refs
              Scenario.start eq_refl eq_refl eq_refl)
    as (params & Hrun & Hview & _).
  exists params. split; [exact Hrun | exact Hview].
Defined.


(** ** A whole run

    [main] with every option on: (200,1) is selected by type and by file and
    is therefore there twice; (300,1) is reported as not in use; (100,1)
    takes the mean of its two bond lengths and (200,1) that of its one
    angle; the selection file has flagged (100,2). *)
Example main_everything :
  main Scenario.env Scenario.everything (mkState [] []) =
    (mkState
       [ mkParam 100 1 "be" (2714000 # 2000000) None;
         mkParam 100 2 "bf" (5 # 1) (Some true);
         mkParam 200 1 "ae" (110 # 1) None;
         mkParam 300 1 "ae" (120 # 1) None ]
       [ EvImportFF "mm3.fld"; EvOpen "sel.txt"; EvMacroModel "a.mmo";
         EvNotInUse (mkParam 300 1 "ae" (120 # 1) None);
         EvExportFF "out.fld"
           [ mkParam 200 1 "ae" (110 # 1) None;
             mkParam 300 1 "ae" (120 # 1) None;
             mkParam 100 1 "be" (2714000 # 2000000) None;
             mkParam 100 2 "bf" (5 # 1) (Some true);
             mkParam 200 1 "ae" (110 # 1) None ];
         EvPrint 200 1; EvPrint 300 1; EvPrint 100 1; EvPrint 100 2;
         EvPrint 200 1 ],
     Ok [2; 3; 0; 1; 2]%nat).
Proof. by vm_compute. Qed.
